(** * FocalLengthAnalyzer: a shallow embedding of [main.py]

    The development follows the class [FocalLengthAnalyzer]:

    - numbers.  A Python number (an [int], a finite [float], an EXIF
      rational) is modelled by the exact rational it denotes, in [Q].
      Arithmetic is exact: the rounding error of a binary64 product is not
      part of the model, nor are the infinities and NaN.  [round(x, 1)] and
      [round(x)] round to the nearest tenth, respectively integer, with
      ties going to the even neighbour, as the built-in does on the exact
      value of its argument.  The properties below are those that do not
      hang on the last bit of a product: comparisons, [round(x)] and
      products with 1 are exact in binary64 as well.
    - strings.  A [str] is a [string] of 8-bit characters; a literal with
      Chinese text is its UTF-8 encoding, whose byte-wise order is the
      code-point order Python compares strings by.  [lower] and [strip]
      are [str.lower] and [str.strip] on ASCII text; the module [Py] has
      the methods that call them with the built-ins as parameters, for
      the properties that must hold on all of Unicode.
    - dictionaries are [gmap string _]; the dictionary of focal groups, which
      is only ever iterated in insertion order, is an association list.
    - the console, the JSON file of elicited data and the clock are fields of
      an explicit [World] threaded through the stateful methods. *)

From Stdlib Require Import ZArith QArith Qabs Ascii String List Lia Lqa.
From Stdlib Require Import DecimalString.
From stdpp Require Import gmap strings sorting.

Import ListNotations.
Local Open Scope Z_scope.
Local Open Scope Q_scope.

(** ** Numbers *)

(** [round(x)] of the built-in: nearest integer, ties to even. *)
Definition round_half_even (x : Q) : Z :=
  let n := Qnum x in
  let d := Zpos (Qden x) in
  let q := (n / d)%Z in
  match (2 * (n mod d) ?= d)%Z with
  | Lt => q
  | Gt => (q + 1)%Z
  | Eq => if Z.even q then q else (q + 1)%Z
  end.

(** [round(x, 1)]: the nearest multiple of one tenth, ties to even. *)
Definition round1 (x : Q) : Q := inject_Z (round_half_even (x * 10)) / 10.

(** [str(n)] for an [int]. *)
Definition str_of_int (n : Z) : string := NilZero.string_of_int (Z.to_int n).

(** ** Strings *)

Definition code (c : ascii) : N := N_of_ascii c.

(** [c.isspace()] on the ASCII range: TAB..CR, FS..US and the space. *)
Definition isspace (c : ascii) : bool :=
  ((9 <=? code c) && (code c <=? 13) || (28 <=? code c) && (code c <=? 32))%N.

Definition isupper (c : ascii) : bool :=
  ((65 <=? code c) && (code c <=? 90))%N.

Definition lower_char (c : ascii) : ascii :=
  if isupper c then ascii_of_N (code c + 32) else c.

#[global] Arguments isspace : simpl never.
#[global] Arguments lower_char : simpl never.

(** [s.lower()], on ASCII text *)
Fixpoint lower (s : string) : string :=
  match s with
  | EmptyString => EmptyString
  | String c s' => String (lower_char c) (lower s')
  end.

Fixpoint lstrip (s : string) : string :=
  match s with
  | EmptyString => EmptyString
  | String c s' => if isspace c then lstrip s' else s
  end.

Fixpoint rstrip (s : string) : string :=
  match s with
  | EmptyString => EmptyString
  | String c s' =>
      match rstrip s' with
      | EmptyString => if isspace c then EmptyString else String c EmptyString
      | r => String c r
      end
  end.

(** [s.strip()], on ASCII text *)
Definition strip (s : string) : string := lstrip (rstrip s).

(** [not s] for an optional string: [None] and the empty string are falsy. *)
Definition falsy (s : option string) : bool :=
  match s with
  | None | Some EmptyString => true
  | Some _ => false
  end.

(** ** The tables *)

(** [_define_focal_groups]: label, lower and upper bound, in the order the
    dictionary literal lists them. *)
Definition _define_focal_groups : list (string * (Z * Z)) :=
  [ ("超广角(14-19mm)", (14, 19)%Z);
    ("超广角(20-23mm)", (20, 23)%Z);
    ("广角 (24-28mm)", (24, 28)%Z);
    ("标准广角 (35mm)", (29, 40)%Z);
    ("标准 (50mm)", (41, 65)%Z);
    ("人像 (85mm)", (66, 95)%Z);
    ("中长焦 (100-135mm)", (95, 149)%Z);
    ("长焦 (200mm)", (150, 250)%Z);
    ("超长焦 (300mm)", (251, 349)%Z);
    ("超长焦 (400mm)", (350, 449)%Z);
    ("超长焦 (500-600mm)", (450, 649)%Z);
    ("超长焦 (600mm+)", (650, 2000)%Z) ].

Definition unknown_label : string := "未知焦段".

(** ** The normalization engine *)

Section Engine.

(** [self.crop_factors], the table read from [camera_crop_factors.json]. *)
Variable crop_factors : gmap string Q.

(** [self.focal_groups] *)
Variable focal_groups : list (string * (Z * Z)).

Definition get_camera_crop_factor (camera_model : option string) : Q :=
  match camera_model with
  | None => 1
  | Some s =>
      if falsy camera_model then 1
      else
        let camera_model_lower := strip (lower s) in
        match crop_factors !! camera_model_lower with
        | Some c => c
        | None => 1
        end
  end.

Definition convert_to_35mm_equivalent
    (focal_length : option Q) (camera_model : option string) : option Q :=
  match focal_length with
  | None => None
  | Some f =>
      let crop_factor := get_camera_crop_factor camera_model in
      let equivalent_focal := f * crop_factor in
      Some (round1 equivalent_focal)
  end.

(** The [for] loop of [group_focal_length]: the first group, in table
    order, whose inclusive bounds contain the value. *)
Fixpoint first_group (groups : list (string * (Z * Z))) (x : Q)
    : option string :=
  match groups with
  | [] => None
  | (group_name, (min_f, max_f)) :: rest =>
      if Qle_bool (inject_Z min_f) x && Qle_bool x (inject_Z max_f)
      then Some group_name
      else first_group rest x
  end.

Definition group_focal_length (focal_length : option Q) : string :=
  match focal_length with
  | None => unknown_label
  | Some x =>
      match first_group focal_groups x with
      | Some group_name => group_name
      | None => (str_of_int (round_half_even x) +:+ "mm")%stdpp
      end
  end.

End Engine.

(** ** Paths ([os.path], POSIX flavour) *)

Definition is_sep (c : ascii) : bool := (code c =? 47)%N.
Definition is_dot (c : ascii) : bool := (code c =? 46)%N.

Fixpoint has_sep (p : string) : bool :=
  match p with
  | EmptyString => false
  | String c p' => is_sep c || has_sep p'
  end.

(** [os.path.basename(p)]: what follows the last separator. *)
Fixpoint basename (p : string) : string :=
  match p with
  | EmptyString => EmptyString
  | String c p' =>
      if has_sep p' then basename p'
      else if is_sep c then p' else p
  end.

Fixpoint ends_with_sep (p : string) : bool :=
  match p with
  | EmptyString => false
  | String c EmptyString => is_sep c
  | String _ p' => ends_with_sep p'
  end.

(** [os.path.join(a, b)] *)
Definition join (a b : string) : string :=
  match b with
  | String c _ =>
      if is_sep c then b
      else if falsy (Some a) || ends_with_sep a then (a +:+ b)%stdpp
      else (a +:+ "/" +:+ b)%stdpp
  | EmptyString =>
      if falsy (Some a) || ends_with_sep a then a else (a +:+ "/")%stdpp
  end.

(** Split at the last dot: what precedes it, and the suffix from it on. *)
Fixpoint rsplit_dot (s : string) : option (string * string) :=
  match s with
  | EmptyString => None
  | String c s' =>
      match rsplit_dot s' with
      | Some (pre, suf) => Some (String c pre, suf)
      | None => if is_dot c then Some (EmptyString, s) else None
      end
  end.

Fixpoint all_dots (s : string) : bool :=
  match s with
  | EmptyString => true
  | String c s' => is_dot c && all_dots s'
  end.

(** [os.path.splitext(p)[1]]: the extension starts at the last dot of the
    final component, unless only dots precede it there. *)
Definition splitext_ext (p : string) : string :=
  match rsplit_dot (basename p) with
  | Some (pre, suf) => if all_dots pre then EmptyString else suf
  | None => EmptyString
  end.

Definition supported_formats : list string :=
  [".jpg"; ".jpeg"; ".tiff"; ".tif"; ".png"; ".arw"; ".cr2"; ".nef"].

(** ** The elicited-data store, the console and the JSON file *)

Module Elicited.
(** A value of [self.missing_exif_data]. *)
Record entry := {
  focal_length : Q;
  crop_factor : Q;
  equivalent_focal : Q;
  sensor_choice : string;
  timestamp : string
}.
End Elicited.

(** What the methods print; the texts themselves are not modelled. *)
Inductive message :=
  | LoadFailed                      (* 加载缺失exif数据失败 *)
  | Saved                           (* 缺失EXIF数据已保存到 ... *)
  | SaveFailed                      (* 保存缺失EXIF数据失败 *)
  | UsingSaved (filename : string)  (* 图片 ... 使用之前保存的数据 *)
  | MissingExif (filename : string) (* 图片 ... 缺少EXIF数据 *)
  | EnterManually                   (* 请手动输入焦段信息 ... *)
  | SkippedImage (filename : string)(* 已跳过图片 ... *)
  | InvalidNumber                   (* 请输入有效的数字 *)
  | SensorMenu                      (* 请选择传感器尺寸, five lines *)
  | StartAnalysis                   (* 开始分析图片EXIF数据... *)
  | Processing (rel_path : string)  (* 处理: ... *)
  | ExifError (image_path : string) (* 读取 ... 的EXIF数据时出错 *)
  | FoundMissing (n : nat)          (* 发现 n 个文件缺少EXIF数据 *)
  | NoData.                         (* 没有找到可分析的图片数据 *)

Inductive prompt := AskFocal | AskSensor.

Inductive event :=
  | Printed (m : message)
  | Asked (p : prompt).

(** [missing_exif_data.json] on disk. *)
Inductive json_file :=
  | Absent
  | Corrupt
  | Content (data : gmap string Elicited.entry).

Record World := {
  missing_exif_data : gmap string Elicited.entry;  (* the attribute *)
  disk : json_file;
  writable : bool;        (* whether opening the file for writing succeeds *)
  stdin : list string;    (* the lines the user will type *)
  console : list event;   (* what was printed and asked, oldest first *)
  now : string            (* [datetime.datetime.now().isoformat()] *)
}.

Definition emit (e : event) (w : World) : World :=
  {| missing_exif_data := missing_exif_data w; disk := disk w;
     writable := writable w; stdin := stdin w;
     console := console w ++ [e]; now := now w |}.

Definition print (m : message) : World -> World := emit (Printed m).

(** The only exception that escapes the modelled methods. *)
Inductive exn := EOFError.

Inductive result (A : Type) :=
  | Ok (a : A)
  | Raise (e : exn).
Arguments Ok {A} a.
Arguments Raise {A} e.

Definition M (A : Type) : Type := World -> result A * World.

Definition ret {A} (a : A) : M A := fun w => (Ok a, w).

Definition bind {A B} (m : M A) (k : A -> M B) : M B :=
  fun w =>
    match m w with
    | (Ok a, w') => k a w'
    | (Raise e, w') => (Raise e, w')
    end.

Notation "'do' x <- m ; k" := (bind m (fun x => k))
  (at level 10, x name, m at level 100, k at level 200).

(** [input(prompt)]: the next line of standard input, [EOFError] at its end. *)
Definition input (p : prompt) : M string :=
  fun w =>
    let w := emit (Asked p) w in
    match stdin w with
    | [] => (Raise EOFError, w)
    | line :: rest =>
        (Ok line,
         {| missing_exif_data := missing_exif_data w; disk := disk w;
            writable := writable w; stdin := rest;
            console := console w; now := now w |})
    end.

Definition _load_missing_exif_data (f : json_file)
    : gmap string Elicited.entry :=
  match f with
  | Content data => data
  | Absent | Corrupt => ∅
  end.

(** The part of [__init__] that concerns the store. *)
Definition init (f : json_file) (can_write : bool) (lines : list string)
    (clock : string) : World :=
  {| missing_exif_data := _load_missing_exif_data f; disk := f;
     writable := can_write; stdin := lines;
     console := match f with Corrupt => [Printed LoadFailed] | _ => [] end;
     now := clock |}.

(** Saving fails when the file cannot be opened for writing, which leaves
    it as it was.  A failure of [json.dump] after the file was opened, and
    thereby emptied, is not modelled. *)
Definition save_missing_exif_data (w : World) : World :=
  if writable w then
    print Saved
      {| missing_exif_data := missing_exif_data w;
         disk := Content (missing_exif_data w);
         writable := writable w; stdin := stdin w;
         console := console w; now := now w |}
  else print SaveFailed w.

Definition set_entry (k : string) (e : Elicited.entry) (w : World) : World :=
  {| missing_exif_data := <[k := e]> (missing_exif_data w); disk := disk w;
     writable := writable w; stdin := stdin w;
     console := console w; now := now w |}.

(** The dictionary literal of the sensor menu. *)
Definition sensor_crop_factors : gmap string Q :=
  list_to_map [("1", 1); ("2", 3 # 2); ("3", 8 # 5); ("4", 2); ("5", 27 # 10)].

(** ** The missing-data resolver *)

Section Resolver.

(** The built-in [float(s)] on console input: [None] is [ValueError]. *)
Variable float : string -> option Q.

(** How the [while True] loop of [handle_missing_exif] is left. *)
Inductive loop_exit :=
  | Got (focal_length : Q)   (* [break] *)
  | Skip                     (* [return None] *)
  | Eof.                     (* [input] raised *)

(** The loop, by recursion on the lines still to be read: every turn
    takes one. *)
Fixpoint read_focal (filename : string) (lines : list string)
    (out : list event) : loop_exit * list string * list event :=
  let out := out ++ [Asked AskFocal] in
  match lines with
  | [] => (Eof, [], out)
  | line :: rest =>
      let focal_input := strip line in
      if falsy (Some focal_input)
      then (Skip, rest, out ++ [Printed (SkippedImage filename)])
      else
        match float focal_input with
        | Some focal_length => (Got focal_length, rest, out)
        | None => read_focal filename rest (out ++ [Printed InvalidNumber])
        end
  end.

Definition with_io (lines : list string) (out : list event) (w : World)
    : World :=
  {| missing_exif_data := missing_exif_data w; disk := disk w;
     writable := writable w; stdin := lines; console := out; now := now w |}.

Definition handle_missing_exif (image_path : string) : M (option Q) :=
  fun w =>
    let filename := basename image_path in
    match missing_exif_data w !! filename with
    | Some data =>
        (Ok (Some (Elicited.equivalent_focal data)),
         print (UsingSaved filename) w)
    | None =>
        let w := print EnterManually (print (MissingExif filename) w) in
        match read_focal filename (stdin w) (console w) with
        | (Eof, lines, out) => (Raise EOFError, with_io lines out w)
        | (Skip, lines, out) => (Ok None, with_io lines out w)
        | (Got focal_length, lines, out) =>
            (do line <- input AskSensor;
             let sensor_choice := strip line in
             let crop_factor :=
               default 1 (sensor_crop_factors !! sensor_choice) in
             let equivalent_focal := focal_length * crop_factor in
             fun w =>
               let entry :=
                 {| Elicited.focal_length := focal_length;
                    Elicited.crop_factor := crop_factor;
                    Elicited.equivalent_focal := equivalent_focal;
                    Elicited.sensor_choice := sensor_choice;
                    Elicited.timestamp := now w |} in
               (Ok (Some equivalent_focal),
                save_missing_exif_data (set_entry filename entry w)))
              (print SensorMenu (with_io lines out w))
        end
    end.

End Resolver.

(** ** The methods over the built-in string functions

    [str.lower] and [str.strip] act on all of Unicode: [strip] removes every
    character that [str.isspace] accepts, the ideographic space U+3000
    among them, and [lower] follows the Unicode case mappings.  [lower] and
    [strip] above are the two methods on ASCII text.  This module has the
    methods that call them once more, with the built-ins left as
    parameters: [str_lower] stands for [str.lower], [str_strip] for
    [str.strip] and [float] for [float], whatever they do outside ASCII. *)

Module Py.

Section Loop.

(** The type of what [float(s)] returns: the binary64 numbers, with the
    infinities and NaN that the texts [inf] and [nan] denote. *)
Variable num : Type.
Variable str_strip : string -> string.
Variable float : string -> option num.   (* [None] is [ValueError] *)

Inductive loop_exit :=
  | Got (focal_length : num)   (* [break] *)
  | Skip                       (* [return None] *)
  | Eof.                       (* [input] raised *)

(** The [while True] loop of [handle_missing_exif]. *)
Fixpoint read_focal (filename : string) (lines : list string)
    (out : list event) : loop_exit * list string * list event :=
  let out := out ++ [Asked AskFocal] in
  match lines with
  | [] => (Eof, [], out)
  | line :: rest =>
      let focal_input := str_strip line in
      if falsy (Some focal_input)
      then (Skip, rest, out ++ [Printed (SkippedImage filename)])
      else
        match float focal_input with
        | Some focal_length => (Got focal_length, rest, out)
        | None => read_focal filename rest (out ++ [Printed InvalidNumber])
        end
  end.

End Loop.

Arguments Got {num} focal_length.
Arguments Skip {num}.
Arguments Eof {num}.
Arguments read_focal {num} str_strip float filename lines out.

Section Methods.

Variable str_lower : string -> string.
Variable str_strip : string -> string.
Variable float : string -> option Q.
Variable crop_factors : gmap string Q.

Definition get_camera_crop_factor (camera_model : option string) : Q :=
  match camera_model with
  | None => 1
  | Some s =>
      if falsy camera_model then 1
      else
        let camera_model_lower := str_strip (str_lower s) in
        match crop_factors !! camera_model_lower with
        | Some c => c
        | None => 1
        end
  end.

Definition handle_missing_exif (image_path : string) : M (option Q) :=
  fun w =>
    let filename := basename image_path in
    match missing_exif_data w !! filename with
    | Some data =>
        (Ok (Some (Elicited.equivalent_focal data)),
         print (UsingSaved filename) w)
    | None =>
        let w := print EnterManually (print (MissingExif filename) w) in
        match read_focal str_strip float filename (stdin w) (console w) with
        | (Eof, lines, out) => (Raise EOFError, with_io lines out w)
        | (Skip, lines, out) => (Ok None, with_io lines out w)
        | (Got focal_length, lines, out) =>
            (do line <- input AskSensor;
             let sensor_choice := str_strip line in
             let crop_factor :=
               default 1 (sensor_crop_factors !! sensor_choice) in
             let equivalent_focal := focal_length * crop_factor in
             fun w =>
               let entry :=
                 {| Elicited.focal_length := focal_length;
                    Elicited.crop_factor := crop_factor;
                    Elicited.equivalent_focal := equivalent_focal;
                    Elicited.sensor_choice := sensor_choice;
                    Elicited.timestamp := now w |} in
               (Ok (Some equivalent_focal),
                save_missing_exif_data (set_entry filename entry w)))
              (print SensorMenu (with_io lines out w))
        end
    end.

End Methods.

End Py.

(** An exit of the loop on ASCII text, as an exit of the loop above. *)
Definition py_exit (e : loop_exit) : Py.loop_exit Q :=
  match e with
  | Got focal_length => Py.Got focal_length
  | Skip => Py.Skip
  | Eof => Py.Eof
  end.

(** ** Walking the folder *)

(** A row of [focal_data]. *)
Record ImageRecord := {
  filename : string;
  original_focal : option Q;
  camera_model : option string;
  equivalent_focal : option Q;
  focal_group : string
}.

(** What the decoder ([Image.open] and [_getexif]) gives for a file.  A
    focal length is a finite number: the NaN that a decoder may give for a
    zero denominator, on which [analyze_folder] raises, is not modelled. *)
Inductive focal_tag :=
  | Ratio (num den : Z)   (* a pair, as older decoders return *)
  | Number (x : Q).

Inductive decoded :=
  | Unreadable            (* an exception *)
  | NoExif                (* [_getexif()] is [None] *)
  | Exif (FocalLength : option focal_tag) (Model : option string).

Section Analyzer.

Variable crop_factors : gmap string Q.
Variable focal_groups : list (string * (Z * Z)).
Variable float : string -> option Q.

(** The folder given to the constructor, and what the operating system
    and the decoder answer for it. *)
Variable input_folder : string.
Variable walk : list (string * list string).   (* [(root, files)] *)
Variable relpath : string -> string -> string. (* [os.path.relpath] *)
Variable decode : string -> decoded.

Definition extract_exif_data (image_path : string) (w : World)
    : (option Q * option string) * World :=
  match decode image_path with
  | Unreadable => ((None, None), print (ExifError image_path) w)
  | NoExif => ((None, None), w)
  | Exif None model => ((None, model), w)
  | Exif (Some (Number x)) model => ((Some x, model), w)
  | Exif (Some (Ratio n d)) model =>
      if (d =? 0)%Z
      then ((None, None), print (ExifError image_path) w)
      else ((Some (inject_Z n / inject_Z d), model), w)
  end.

Definition is_supported (filename : string) : bool :=
  negb (String.prefix "._" filename) &&
  bool_decide (splitext_ext (lower filename) ∈ supported_formats).

(** The body of the first loop, for one file of one directory. *)
Definition scan_file (root filename : string)
    (st : list ImageRecord * list string * World)
    : list ImageRecord * list string * World :=
  let '(focal_data, missing_exif_files, w) := st in
  if is_supported filename then
    let image_path := join root filename in
    let rel_path := relpath image_path input_folder in
    let w := print (Processing rel_path) w in
    let '((focal_length, model), w) := extract_exif_data image_path w in
    match focal_length with
    | None => (focal_data, missing_exif_files ++ [image_path], w)
    | Some _ =>
        let equivalent_focal :=
          convert_to_35mm_equivalent crop_factors focal_length model in
        let group := group_focal_length focal_groups equivalent_focal in
        (focal_data ++
           [ {| filename := rel_path; original_focal := focal_length;
                camera_model := model;
                equivalent_focal := equivalent_focal;
                focal_group := group |} ],
         missing_exif_files, w)
    end
  else st.

Definition scan_folder (w : World)
    : list ImageRecord * list string * World :=
  fold_left
    (fun st '(root, files) =>
       fold_left (fun st filename => scan_file root filename st) files st)
    walk ([], [], print StartAnalysis w).

(** The body of the second loop, for one file without metadata. *)
Definition resolve_file (image_path : string)
    (focal_data : list ImageRecord) : M (list ImageRecord) :=
  do equivalent_focal <- handle_missing_exif float image_path;
  match equivalent_focal with
  | None => ret focal_data
  | Some _ =>
      let group := group_focal_length focal_groups equivalent_focal in
      ret (focal_data ++
             [ {| filename := basename image_path; original_focal := None;
                  camera_model := Some "手动输入";
                  equivalent_focal := equivalent_focal;
                  focal_group := group |} ])
  end.

Fixpoint resolve_all (missing_exif_files : list string)
    (focal_data : list ImageRecord) : M (list ImageRecord) :=
  match missing_exif_files with
  | [] => ret focal_data
  | image_path :: rest =>
      do focal_data <- resolve_file image_path focal_data;
      resolve_all rest focal_data
  end.

Definition analyze_folder : M (list ImageRecord) :=
  fun w =>
    let '(focal_data, missing_exif_files, w) := scan_folder w in
    match missing_exif_files with
    | [] => (Ok focal_data, w)
    | _ =>
        resolve_all missing_exif_files focal_data
          (print (FoundMissing (List.length missing_exif_files)) w)
    end.

End Analyzer.

(** ** The aggregator *)

Section Counts.

Context {K : Type}.
Variable same : K -> K -> bool.   (* equality of index values *)
Variable leb : K -> K -> bool.    (* their order *)

(** One more occurrence of [k]; a new value goes last. *)
Fixpoint tally_add (k : K) (acc : list (K * nat)) : list (K * nat) :=
  match acc with
  | [] => [(k, 1%nat)]
  | (k', n) :: rest =>
      if same k' k then (k', S n) :: rest else (k', n) :: tally_add k rest
  end.

Definition tally (l : list K) : list (K * nat) :=
  fold_left (fun acc k => tally_add k acc) l [].

Definition by_count (a b : K * nat) : Prop := (snd b <= snd a)%nat.
Definition by_key (a b : K * nat) : Prop := Is_true (leb (fst a) (fst b)).

#[local] Instance by_count_dec a b : Decision (by_count a b).
Proof. unfold by_count. apply _. Defined.
#[local] Instance by_key_dec a b : Decision (by_key a b).
Proof. unfold by_key. apply _. Defined.

(** [Series.value_counts()]: one row per distinct value, most frequent
    first. *)
Definition value_counts (l : list K) : list (K * nat) :=
  merge_sort by_count (tally l).

(** [Series.sort_index()]: rows in ascending order of the index. *)
Definition sort_index (s : list (K * nat)) : list (K * nat) :=
  merge_sort by_key s.

(** [series.index] *)
Definition index (s : list (K * nat)) : list K := map fst s.

End Counts.

(** The dictionary [generate_statistics] returns. *)
Record AnalysisResult := {
  dataframe : list ImageRecord;
  group_stats : list (string * nat);
  focal_stats : list (Q * nat);
  total_images : nat
}.

(** [df['equivalent_focal']] as [value_counts] sees it: missing values are
    dropped. *)
Definition focal_column (df : list ImageRecord) : list Q :=
  omap equivalent_focal df.

Definition generate_statistics (focal_data : list ImageRecord)
    : option AnalysisResult :=
  match focal_data with
  | [] => None
  | _ =>
      let df := focal_data in
      Some {| dataframe := df;
              group_stats :=
                sort_index String.leb
                  (value_counts String.eqb (map focal_group df));
              focal_stats :=
                sort_index Qle_bool (value_counts Qeq_bool (focal_column df));
              total_images := List.length focal_data |}
  end.

(** The two values [print_statistics] reports as the upgrade suggestion;
    [None] stands for the [IndexError] of an empty index. *)
Definition most_used_group (stats : AnalysisResult) : option string :=
  head (index (group_stats stats)).

Definition most_used_focal (stats : AnalysisResult) : option Q :=
  head (index (focal_stats stats)).

(** A row as the second loop of [analyze_folder] builds it. *)
Definition manual_record (name : string) (x : Q) : ImageRecord :=
  {| filename := name; original_focal := None;
     camera_model := Some "手动输入"; equivalent_focal := Some x;
     focal_group := group_focal_length _define_focal_groups (Some x) |}.

(** ** Vocabulary of the statements *)

(** [x] lies within the inclusive bounds of the group [g]. *)
Definition within (x : Q) (g : string * (Z * Z)) : Prop :=
  inject_Z (fst (snd g)) <= x /\ x <= inject_Z (snd (snd g)).

(** A string of whitespace only. *)
Fixpoint blank (w : string) : bool :=
  match w with
  | EmptyString => true
  | String c w' => isspace c && blank w'
  end.

(** Two characters that are the same letter, whatever their case. *)
Definition same_letter (a b : ascii) : Prop :=
  a = b \/
  (isupper a = true /\ b = lower_char a) \/
  (isupper b = true /\ a = lower_char b).

(** Two strings that differ in the case of their letters only. *)
Inductive case_variant : string -> string -> Prop :=
  | case_variant_nil : case_variant EmptyString EmptyString
  | case_variant_cons a b s t :
      same_letter a b -> case_variant s t ->
      case_variant (String a s) (String b t).

(** The entry written after the focal length [f] and the sensor line
    [line] were read. *)
Definition elicited (f : Q) (line : string) (w : World) : Elicited.entry :=
  let c := default 1 (sensor_crop_factors !! strip line) in
  {| Elicited.focal_length := f;
     Elicited.crop_factor := c;
     Elicited.equivalent_focal := f * c;
     Elicited.sensor_choice := strip line;
     Elicited.timestamp := now w |}.

(** The same entry, the line trimmed by the built-in. *)
Definition elicited_by (str_strip : string -> string) (f : Q)
    (line : string) (w : World) : Elicited.entry :=
  let c := default 1 (sensor_crop_factors !! str_strip line) in
  {| Elicited.focal_length := f;
     Elicited.crop_factor := c;
     Elicited.equivalent_focal := f * c;
     Elicited.sensor_choice := str_strip line;
     Elicited.timestamp := now w |}.

(** A reading of [float] on plain decimal numerals (an optional sign,
    digits, at most one point), enough to run the resolver on examples.
    It yields the rational the numeral denotes; the built-in yields the
    nearest binary64 number and accepts more (exponents, underscores,
    infinities). *)
Definition digit (c : ascii) : option Z :=
  if ((48 <=? code c) && (code c <=? 57))%N
  then Some (Z.of_N (code c) - 48)%Z else None.

Fixpoint digits (s : string) (acc : Z) (scale : positive)
    (point seen : bool) : option Q :=
  match s with
  | EmptyString => if seen then Some (acc # scale) else None
  | String c s' =>
      if is_dot c then
        if point then None else digits s' acc scale true seen
      else
        match digit c with
        | Some v =>
            digits s' (10 * acc + v)%Z
              (if point then (10 * scale)%positive else scale) point true
        | None => None
        end
  end.

Definition decimal (s : string) : option Q :=
  match s with
  | String c s' =>
      if (code c =? 45)%N then Qopp <$> digits s' 0 1 false false
      else if (code c =? 43)%N then digits s' 0 1 false false
      else digits s 0 1 false false
  | EmptyString => None
  end.

(** [os.path.relpath(path, start)] for a normalised [path] below [start],
    which is all the walk produces; other paths are returned as they are. *)
Fixpoint drop_prefix (pre s : string) : option string :=
  match pre, s with
  | EmptyString, _ => Some s
  | String a pre', String b s' =>
      if Ascii.eqb a b then drop_prefix pre' s' else None
  | String _ _, EmptyString => None
  end.

Definition relpath_below (path start : string) : string :=
  default path (drop_prefix (start +:+ "/")%stdpp path).

(** A decoder for the examples: only [IMG_2.jpg] carries metadata. *)
Definition demo_decode (path : string) : decoded :=
  if String.eqb (basename path) "IMG_2.jpg"
  then Exif (Some (Ratio 50 1)) (Some "Canon EOS 7D")
  else NoExif.

(** Identifier, equivalent focal length and group of the rows returned. *)
Definition identifiers (r : result (list ImageRecord))
    : option (list (string * option Q * string)) :=
  match r with
  | Ok rows =>
      Some (map (fun row =>
                   (filename row, equivalent_focal row, focal_group row))
              rows)
  | Raise _ => None
  end.

(** The labels of the table that occur in [labels], in table order. *)
Definition defined_order (labels : list string) : list string :=
  filter (fun l => l ∈ labels) (map fst _define_focal_groups).

(** The number of rows of a series that carry the index value [k]. *)
Definition count_of {K} (same : K -> K -> bool) (k : K)
    (s : list (K * nat)) : nat :=
  from_option snd 0%nat (List.find (fun row => same (fst row) k) s).

(** Index values up to the equality [E] of the index: occurrence in a list,
    and lists without repetition. *)
Definition has_key {K} (E : relation K) (k : K) (l : list K) : Prop :=
  exists k', k' ∈ l /\ E k k'.

Inductive distinct {K} (E : relation K) : list K -> Prop :=
  | distinct_nil : distinct E []
  | distinct_cons k l :
      ~ has_key E k l -> distinct E l -> distinct E (k :: l).

(** ** More of the class *)




(** The file on disk reloads to the store held in memory. *)
Definition in_sync (w : World) : Prop :=
  _load_missing_exif_data (disk w) = missing_exif_data w.

(** Two worlds that differ in what was printed only. *)
Definition quiet (w w' : World) : Prop :=
  missing_exif_data w' = missing_exif_data w /\ disk w' = disk w /\
  writable w' = writable w /\ stdin w' = stdin w /\ now w' = now w.

(** The files of a walk that pass the filter of [analyze_folder]. *)
Definition supported_files (walk : list (string * list string))
    : list string :=
  List.filter is_supported (concat (map snd walk)).

(** A row that carries a number and the label of that number. *)
Definition labelled (focal_groups : list (string * (Z * Z)))
    (row : ImageRecord) : Prop :=
  exists x,
    equivalent_focal row = Some x /\
    focal_group row = group_focal_length focal_groups (Some x).

(** How often a value occurs in a column. *)
Definition occurrences {K} (same : K -> K -> bool) (k : K) (l : list K)
    : nat :=
  List.length (List.filter (fun x => same x k) l).

(** The lines of a retry: one prompt and one complaint per refused line. *)
Definition retries (bad : list string) : list event :=
  flat_map (fun _ => [Asked AskFocal; Printed InvalidNumber]) bad.

(** [range(0, n, step)] and [l[::step]], for [step >= 1]: the length is
    computed first, then the items are taken at the multiples of [step]. *)
Definition range_step (n step : nat) : list nat :=
  match n with
  | O => []
  | S m => map (fun i => i * step)%nat (seq 0 (m / step + 1))
  end.

Definition slice_step {A} (step : nat) (l : list A) : list A :=
  omap (fun i => l !! i) (range_step (List.length l) step).

(** The tick positions and the values labelling them in the bar chart of
    [visualize_results], for a sorted index of [n] values; the text of a
    label ([f"{float(focal):.1f}mm"]) is not modelled. *)
Definition xticks (n : nat) : list nat :=
  if (20 <? n)%nat
  then let step := Nat.max 1 (n / 20) in range_step n step
  else seq 0 n.

Definition xticklabels {A} (focal_counts_sorted_index : list A) : list A :=
  let n := List.length focal_counts_sorted_index in
  if (20 <? n)%nat
  then let step := Nat.max 1 (n / 20) in
       slice_step step focal_counts_sorted_index
  else focal_counts_sorted_index.

(** A folder for the examples, and a run over it. *)
Definition demo_walk : list (string * list string) :=
  [ ("photos/a", ["IMG_1.jpg"]);
    ("photos/b", ["IMG_1.JPG"; "IMG_1.jpg"; "IMG_2.jpg"; "._IMG_2.jpg";
                  "notes.txt"]) ].

Definition demo_run (lines : list string)
    : result (list ImageRecord) * World :=
  analyze_folder {[ "canon eos 7d" := 8 # 5 ]} _define_focal_groups decimal
    "photos" demo_walk relpath_below demo_decode
    (init Absent true lines "t").

Definition rows_of (r : result (list ImageRecord)) : list ImageRecord :=
  match r with
  | Ok rows => rows
  | Raise _ => []
  end.

(** Decoder answers from which [extract_exif_data] gets no focal length. *)
Definition unusable (d : decoded) : bool :=
  match d with
  | Unreadable | NoExif | Exif None _ => true
  | Exif (Some (Ratio _ den)) _ => (den =? 0)%Z
  | Exif (Some (Number _)) _ => false
  end.

(** The upper bounds after which the table leaves a gap up to the next
    lower bound. *)
Definition gaps : list Z := [19; 23; 28; 40; 65; 149; 250; 349; 449; 649]%Z.

Definition in_gap (x : Q) : Prop :=
  Exists (fun hi => inject_Z hi < x /\ x < inject_Z hi + 1) gaps.

(** * Properties *)

(** ** Rounding *)

Section Rounding.

Variable x : Q.
Let n := Qnum x.
Let d := Zpos (Qden x).
Let k := round_half_even x.

(** The rounded value is within one half of the argument. *)
Lemma round_half_even_near : (- d <= 2 * (k * d - n) <= d)%Z.
Proof.
  subst k. unfold round_half_even. fold n d.
  assert (Hd : (0 < d)%Z) by (subst d; lia).
  pose proof (Z.div_mod n d ltac:(lia)) as Hdm.
  pose proof (Z.mod_pos_bound n d Hd) as Hr.
  destruct (Z.compare_spec (2 * (n mod d)) d) as [He|Hl|Hg];
    [destruct (Z.even (n / d))|..]; nia.
Qed.


End Rounding.



(** No integer is closer to [x] than [round_half_even x]. *)
Lemma round_half_even_nearest (x : Q) (j : Z) :
  Qabs (x - inject_Z (round_half_even x)) <= Qabs (x - inject_Z j).
Proof.
  pose proof (round_half_even_near x) as A.
  destruct x as [n d]. set (k := round_half_even (n # d)) in *.
  cbn [Qnum Qden] in A.
  unfold Qle, Qabs, Qminus, Qplus, Qopp, inject_Z. cbn [Qnum Qden].
  rewrite !Pos.mul_1_r, !Z.mul_1_r.
  apply Z.mul_le_mono_nonneg_r; [lia|].
  destruct (Z.eq_dec j k) as [->|Hjk]; [lia|].
  assert (Hd : (0 < Zpos d)%Z) by lia.
  set (D := Zpos d) in *.
  assert (Hj : (D <= Z.abs ((j - k) * D))%Z).
  { rewrite Z.abs_mul. rewrite (Z.abs_eq D) by lia.
    assert (1 <= Z.abs (j - k))%Z by lia. nia. }
  lia.
Qed.

(** ** The normalization engine *)

Example group_focal_length_examples :
  map (group_focal_length _define_focal_groups)
    [None; Some 14; Some 95; Some (39 # 2); Some (57 # 2); Some (1 # 5);
     Some (- (5 # 2)); Some (4001 # 2)] =
  ["未知焦段"; "超广角(14-19mm)"; "人像 (85mm)"; "20mm"; "28mm"; "0mm";
   "-2mm"; "2000mm"].
Proof. reflexivity. Qed.

Example convert_to_35mm_equivalent_examples :
  map (fun '(f, m) =>
         convert_to_35mm_equivalent {[ "canon eos 5d" := 1 ]} f m)
    [(Some 50, Some "Canon EOS 5D"); (Some 50, Some "Unknown Camera");
     (Some (1 # 4), None); (Some (9 # 25), Some ""); (None, Some "x")] =
  [Some (500 # 10); Some (500 # 10); Some (2 # 10); Some (4 # 10); None].
Proof. reflexivity. Qed.

Lemma range_test (lo hi : Z) (x : Q) :
  Qle_bool (inject_Z lo) x && Qle_bool x (inject_Z hi) = true <->
  within x ("", (lo, hi)).
Proof.
  unfold within. cbn [fst snd].
  rewrite andb_true_iff, !Qle_bool_iff. reflexivity.
Qed.

(** The loop returns the first group that contains the value. *)
Lemma first_group_first groups x pre l lo hi post :
  groups = pre ++ (l, (lo, hi)) :: post ->
  within x (l, (lo, hi)) ->
  Forall (fun g => ~ within x g) pre ->
  first_group groups x = Some l.
Proof.
  intros -> Hin Hpre. induction Hpre as [|[l' [lo' hi']] pre Hg _ IH]; cbn.
  - apply (range_test lo hi x) in Hin. rewrite Hin. reflexivity.
  - destruct (Qle_bool (inject_Z lo') x && Qle_bool x (inject_Z hi')) eqn:E.
    + apply range_test in E. contradiction.
    + exact IH.
Qed.

Lemma first_group_none groups x :
  Forall (fun g => ~ within x g) groups -> first_group groups x = None.
Proof.
  induction 1 as [|[l [lo hi]] gs Hg _ IH]; cbn; [reflexivity|].
  destruct (Qle_bool (inject_Z lo) x && Qle_bool x (inject_Z hi)) eqn:E.
  - apply range_test in E. contradiction.
  - exact IH.
Qed.

Lemma first_group_label groups x l :
  first_group groups x = Some l -> In l (map fst groups).
Proof.
  induction groups as [|[l' [lo hi]] gs IH]; cbn; [discriminate|].
  destruct (_ && _); [intros [= ->]; now left|right; auto].
Qed.

Ltac peel H s :=
  destruct s as [|? s]; cbn in H;
  [discriminate H | first [discriminate H | injection H as _ H; peel H s]].

(** A synthetic label is never the sentinel: it ends in [mm]. *)
Lemma synthetic_not_unknown (s : string) :
  (s +:+ "mm")%stdpp <> unknown_label.
Proof. unfold unknown_label. intros H. peel H s. Qed.

Lemma first_group_at groups x (i : nat) l lo hi :
  groups !! i = Some (l, (lo, hi)) ->
  within x (l, (lo, hi)) ->
  Forall (fun g => ~ within x g) (take i groups) ->
  first_group groups x = Some l.
Proof.
  intros Hi Hw Hpre.
  apply (first_group_first groups x (take i groups) l lo hi
           (drop (S i) groups)); [|assumption..].
  symmetry. apply take_drop_middle. exact Hi.
Qed.

Ltac outside :=
  repeat constructor; unfold within; cbn [fst snd]; unfold inject_Z;
  intros [? ?];
  first [ lra
        | match goal with
          | H : ~ _ == _ |- _ => apply H; apply Qle_antisym; assumption
          end ].

Ltac at_index Hw :=
  let go i :=
    apply (first_group_at _define_focal_groups _ i _ _ _ eq_refl Hw);
    cbn [take _define_focal_groups];
    unfold within in Hw; cbn [fst snd] in Hw; unfold inject_Z in Hw;
    destruct Hw; outside in
  first [ go 0%nat | go 1%nat | go 2%nat | go 3%nat | go 4%nat | go 5%nat
        | go 6%nat | go 7%nat | go 8%nat | go 9%nat | go 10%nat | go 11%nat ].

(** Away from 95, a value inside a group's bounds gets that group's label. *)
Lemma group_of_member (x : Q) l lo hi :
  In (l, (lo, hi)) _define_focal_groups ->
  within x (l, (lo, hi)) ->
  ~ x == 95 ->
  group_focal_length _define_focal_groups (Some x) = l.
Proof.
  intros Hin Hw H95. unfold group_focal_length.
  enough (first_group _define_focal_groups x = Some l) as -> by reflexivity.
  cbn in Hin.
  repeat (destruct Hin as [Hin|Hin];
          [injection Hin as <- <- <-; at_index Hw|]).
  contradiction.
Qed.

Lemma group_label_not_unknown l :
  In l (map fst _define_focal_groups) -> l <> unknown_label.
Proof.
  cbn. intros H.
  repeat (destruct H as [<-|H]; [discriminate|]). contradiction.
Qed.

(** C4, as the specification words it, fails where two groups meet: 95 lies
    within the inclusive bounds of the group (95, 149), and the label
    returned is that of the earlier group (66, 95). *)
Lemma group_focal_length_overlap_at_95 :
  In ("中长焦 (100-135mm)", (95, 149)%Z) _define_focal_groups /\
  within 95 ("中长焦 (100-135mm)", (95, 149)%Z) /\
  group_focal_length _define_focal_groups (Some 95) = "人像 (85mm)" /\
  group_focal_length _define_focal_groups (Some 95) <> "中长焦 (100-135mm)".
Proof.
  split; [cbn; tauto|]. split; [split; discriminate|].
  split; [reflexivity|discriminate].
Qed.

(** C4, amended.  [group_focal_length] returns the sentinel if and only if
    its input is absent.  For a number it returns the label of the first
    group, in table order, whose inclusive bounds contain it; that is the
    label of every group containing the value, except at 95.  For a number in
    no group it returns the decimal numeral of the nearest integer followed
    by [mm], so every rational gets a label. *)
Theorem group_focal_length_spec (focal : option Q) (x : Q) :
  (group_focal_length _define_focal_groups focal = unknown_label <->
   focal = None) /\
  (forall pre l lo hi post,
     _define_focal_groups = pre ++ (l, (lo, hi)) :: post ->
     within x (l, (lo, hi)) ->
     Forall (fun g => ~ within x g) pre ->
     group_focal_length _define_focal_groups (Some x) = l) /\
  (forall l lo hi,
     In (l, (lo, hi)) _define_focal_groups ->
     within x (l, (lo, hi)) ->
     ~ x == 95 ->
     group_focal_length _define_focal_groups (Some x) = l) /\
  (Forall (fun g => ~ within x g) _define_focal_groups ->
   group_focal_length _define_focal_groups (Some x) =
     (str_of_int (round_half_even x) +:+ "mm")%stdpp /\
   forall j : Z,
     Qabs (x - inject_Z (round_half_even x)) <= Qabs (x - inject_Z j)).
Proof.
  repeat split.
  - destruct focal as [y|]; [|reflexivity].
    unfold group_focal_length.
    destruct (first_group _define_focal_groups y) as [l|] eqn:E; intros H.
    + apply first_group_label in E.
      apply group_label_not_unknown in E. contradiction.
    + apply synthetic_not_unknown in H. contradiction.
  - intros ->. reflexivity.
  - intros pre l lo hi post Hg Hw Hpre. unfold group_focal_length.
    rewrite (first_group_first _ x pre l lo hi post Hg Hw Hpre). reflexivity.
  - apply group_of_member.
  - unfold group_focal_length. rewrite (first_group_none _ x H). reflexivity.
  - apply round_half_even_nearest.
Qed.

Lemma group_focal_length_spec_witness :
  group_focal_length _define_focal_groups (Some 50) = "标准 (50mm)" /\
  group_focal_length _define_focal_groups (Some (39 # 2)) = "20mm".
Proof.
  split.
  - apply (proj1 (proj2 (proj2 (group_focal_length_spec None 50)))
             "标准 (50mm)" 41%Z 65%Z).
    + cbn. tauto.
    + split; discriminate.
    + discriminate.
  - apply (proj2 (proj2 (proj2 (group_focal_length_spec None (39 # 2))))).
    repeat constructor; intros [H1 H2]; cbn in H1, H2;
      first [now apply H1 | now apply H2].
Defined.

(** ** Case and surrounding whitespace *)

Lemma lower_char_idem (c : ascii) : lower_char (lower_char c) = lower_char c.
Proof. destruct c as [[] [] [] [] [] [] [] []]; reflexivity. Qed.

Lemma isspace_lower_char (c : ascii) : isspace (lower_char c) = isspace c.
Proof. destruct c as [[] [] [] [] [] [] [] []]; reflexivity. Qed.

Lemma same_letter_lower (a b : ascii) :
  same_letter a b -> lower_char a = lower_char b.
Proof.
  intros [->|[[_ ->]|[_ ->]]];
    [reflexivity|symmetry|]; apply lower_char_idem.
Qed.

Lemma case_variant_lower (s t : string) :
  case_variant s t -> lower s = lower t.
Proof.
  induction 1 as [|a b s t Hab _ IH]; cbn; [reflexivity|].
  rewrite (same_letter_lower a b Hab), IH. reflexivity.
Qed.

Lemma append_nil (t : string) : (EmptyString +:+ t)%stdpp = t.
Proof. reflexivity. Qed.

Lemma append_cons (c : ascii) (s t : string) :
  (String c s +:+ t)%stdpp = String c (s +:+ t)%stdpp.
Proof. reflexivity. Qed.

Lemma lower_app (s t : string) :
  lower (s +:+ t)%stdpp = (lower s +:+ lower t)%stdpp.
Proof.
  induction s as [|c s IH]; rewrite ?append_nil, ?append_cons; simpl;
    [reflexivity|now rewrite IH].
Qed.

Lemma blank_lower (w : string) : blank (lower w) = blank w.
Proof.
  induction w as [|c w IH]; rewrite ?append_nil, ?append_cons; simpl;
    [reflexivity|].
  now rewrite isspace_lower_char, IH.
Qed.

Lemma lstrip_blank_app (w s : string) :
  blank w = true -> lstrip (w +:+ s)%stdpp = lstrip s.
Proof.
  induction w as [|c w IH]; rewrite ?append_nil, ?append_cons; simpl;
    [reflexivity|].
  intros [Hc Hw]%andb_true_iff. rewrite Hc. auto.
Qed.

Lemma rstrip_blank (w : string) : blank w = true -> rstrip w = EmptyString.
Proof.
  induction w as [|c w IH]; rewrite ?append_nil, ?append_cons; simpl;
    [reflexivity|].
  intros [Hc Hw]%andb_true_iff. rewrite (IH Hw), Hc. reflexivity.
Qed.

Lemma rstrip_app (s t : string) :
  rstrip (s +:+ t)%stdpp =
    match rstrip t with
    | EmptyString => rstrip s
    | r => (s +:+ r)%stdpp
    end.
Proof.
  induction s as [|c s IH]; rewrite ?append_nil, ?append_cons; simpl.
  - destruct (rstrip t); reflexivity.
  - rewrite IH. destruct (rstrip t) as [|a r]; [reflexivity|].
    destruct s; reflexivity.
Qed.

Lemma strip_padded (w1 u w2 : string) :
  blank w1 = true -> blank w2 = true ->
  strip (w1 +:+ u +:+ w2)%stdpp = strip u.
Proof.
  intros H1 H2. unfold strip.
  rewrite !rstrip_app, (rstrip_blank w2 H2).
  destruct (rstrip u) as [|a r] eqn:E.
  - rewrite (rstrip_blank w1 H1). reflexivity.
  - apply lstrip_blank_app. assumption.
Qed.

(** ** The crop factor of a camera model *)

(** C6, as the specification words it, fails between the empty string and
    a string of whitespace: the first is answered 1 without a lookup, the
    second is looked up under the empty key. *)
Lemma get_camera_crop_factor_blank_differs :
  blank " " = true /\
  get_camera_crop_factor {[ "" := 3 # 2 ]} (Some "") = 1 /\
  get_camera_crop_factor {[ "" := 3 # 2 ]} (Some (" " +:+ "" +:+ "")%stdpp)
    = 3 # 2 /\
  ~ 3 # 2 == 1.
Proof. repeat split; discriminate. Qed.

(** On ASCII text the built-ins are [lower] and [strip]. *)
Lemma get_camera_crop_factor_ascii (crop_factors : gmap string Q)
    (camera_model : option string) :
  Py.get_camera_crop_factor lower strip crop_factors camera_model =
    get_camera_crop_factor crop_factors camera_model.
Proof. reflexivity. Qed.

Lemma lower_strip_padded (w1 u w2 : string) :
  blank w1 = true -> blank w2 = true ->
  strip (lower (w1 +:+ u +:+ w2)%stdpp) = strip (lower u).
Proof.
  intros H1 H2. rewrite !lower_app.
  apply strip_padded; rewrite blank_lower; assumption.
Qed.

(** C6, amended.  [get_camera_crop_factor] returns 1 when the model is
    absent or empty; otherwise it looks the model up in the table under the
    key [model.lower().strip()] and returns 1 on a miss; it is total.
    Consequently two non-empty models with the same key resolve to the same
    factor.  In particular a model string, and any string obtained from it
    by changing the case of ASCII letters and padding it with ASCII
    whitespace, resolve to the same factor, unless the model is empty, the
    padding is not, and the table has an entry under the empty key.  This
    last part rests on three facts about the built-ins, stated as
    hypotheses: the empty string has the empty key, [str.lower] does not
    tell the case of ASCII letters apart, and whitespace around a string
    does not change its key.  Letters outside ASCII are not covered:
    [str.lower] keeps [ß] and turns [SS] into [ss]. *)
Theorem get_camera_crop_factor_spec
    (str_lower str_strip : string -> string)
    (crop_factors : gmap string Q) (s t w1 w2 : string) :
  let resolve := Py.get_camera_crop_factor str_lower str_strip crop_factors in
  let key := fun u : string => str_strip (str_lower u) in
  resolve None = 1 /\
  resolve (Some "") = 1 /\
  (s <> "" -> resolve (Some s) = default 1 (crop_factors !! key s)) /\
  (s <> "" -> t <> "" -> key t = key s ->
   resolve (Some t) = resolve (Some s)) /\
  (key "" = "" ->
   (forall a b, case_variant a b -> str_lower a = str_lower b) ->
   (forall v1 u v2, blank v1 = true -> blank v2 = true ->
      key (v1 +:+ u +:+ v2)%stdpp = key u) ->
   case_variant s t -> blank w1 = true -> blank w2 = true ->
   (s = "" -> (w1 +:+ w2)%stdpp = "" \/ crop_factors !! "" = None) ->
   resolve (Some (w1 +:+ t +:+ w2)%stdpp) = resolve (Some s)).
Proof.
  intros resolve key.
  assert (Hne : forall u, u <> "" ->
            resolve (Some u) = default 1 (crop_factors !! key u)).
  { intros [|c u] Hu; [contradiction|]. subst resolve key.
    cbn [Py.get_camera_crop_factor falsy].
    destruct (crop_factors !! _); reflexivity. }
  split; [reflexivity|]. split; [reflexivity|]. split; [apply Hne|].
  split.
  - intros Hs Ht E. rewrite (Hne s Hs), (Hne t Ht), E. reflexivity.
  - intros H0 Hcase Hpad Hst H1 H2 Hside.
    assert (Hnorm : key (w1 +:+ t +:+ w2)%stdpp = key s).
    { rewrite (Hpad w1 t w2 H1 H2). unfold key.
      rewrite (Hcase s t Hst). reflexivity. }
    destruct Hst as [|a b s t Hab Hst].
    + rewrite append_nil in Hnorm |- *.
      destruct (Hside eq_refl) as [E|E].
      * rewrite E. reflexivity.
      * destruct (w1 +:+ w2)%stdpp eqn:Ew; [reflexivity|].
        rewrite Hne by discriminate. rewrite Hnorm, H0, E. reflexivity.
    + rewrite (Hne (String a s)) by discriminate. rewrite <- Hnorm.
      apply Hne. destruct w1; discriminate.
Qed.

Lemma get_camera_crop_factor_spec_witness :
  Py.get_camera_crop_factor lower strip
    {[ "canon eos r5" := 1; "canon eos 7d" := 8 # 5 ]}
    (Some (" " +:+ "canon eos 7D" +:+ "  ")%stdpp) =
  Py.get_camera_crop_factor lower strip
    {[ "canon eos r5" := 1; "canon eos 7d" := 8 # 5 ]}
    (Some "Canon EOS 7d").
Proof.
  apply (proj2 (proj2 (proj2 (proj2 (get_camera_crop_factor_spec
           lower strip
           {[ "canon eos r5" := 1; "canon eos 7d" := 8 # 5 ]}
           "Canon EOS 7d" "canon eos 7D" " " "  ")))));
    [reflexivity|exact case_variant_lower|exact lower_strip_padded|
     |reflexivity|reflexivity|discriminate].
  repeat first
    [ apply case_variant_nil
    | apply case_variant_cons;
      [first [ left; reflexivity
             | right; left; split; reflexivity
             | right; right; split; reflexivity ]|] ].
Defined.

(** ** The missing-data resolver *)

Lemma sensor_codes (k : string) (c : Q) :
  sensor_crop_factors !! k = Some c -> In k ["1"; "2"; "3"; "4"; "5"].
Proof.
  unfold sensor_crop_factors. intros H.
  apply elem_of_list_to_map_2 in H.
  repeat (apply elem_of_cons in H as [[= -> _]|H]; [cbn; tauto|]).
  apply elem_of_nil in H. contradiction.
Qed.

Section ResolverFacts.

Variable float : string -> option Q.

(** A stored entry is returned as it is: nothing is read, nothing is
    written. *)
Lemma handle_missing_exif_stored image_path w data :
  missing_exif_data w !! basename image_path = Some data ->
  handle_missing_exif float image_path w =
    (Ok (Some (Elicited.equivalent_focal data)),
     print (UsingSaved (basename image_path)) w).
Proof. intros H. unfold handle_missing_exif. rewrite H. reflexivity. Qed.

(** A fresh elicitation: the focal loop ended with [f], the next line
    answers the sensor menu. *)
Lemma handle_missing_exif_elicited image_path w f line rest out :
  let name := basename image_path in
  missing_exif_data w !! name = None ->
  read_focal float name (stdin w)
    (console (print EnterManually (print (MissingExif name) w))) =
    (Got f, line :: rest, out) ->
  handle_missing_exif float image_path w =
    (Ok (Some (f * default 1 (sensor_crop_factors !! strip line))),
     save_missing_exif_data
       (set_entry name (elicited f line w)
          (with_io rest (out ++ [Printed SensorMenu] ++ [Asked AskSensor])
             w))).
Proof.
  intros name Hnone Hloop. unfold handle_missing_exif. fold name.
  rewrite Hnone. destruct w as [store dk wr lines con clock].
  cbn in Hloop |- *. rewrite Hloop.
  unfold bind, input, print, emit, with_io. cbn.
  rewrite <- ?app_assoc. reflexivity.
Qed.

(** Whenever a number is returned, it is the one stored for the image's
    base name. *)
Lemma handle_missing_exif_post image_path w e w' :
  handle_missing_exif float image_path w = (Ok (Some e), w') ->
  exists data,
    missing_exif_data w' !! basename image_path = Some data /\
    Elicited.equivalent_focal data = e.
Proof.
  unfold handle_missing_exif.
  destruct (missing_exif_data w !! basename image_path) as [data|] eqn:Hs.
  - intros [= <- <-]. exists data. split; [exact Hs|reflexivity].
  - destruct (read_focal _ _ _ _) as [[[f| |] lines] out];
      [|discriminate..].
    unfold bind, input. cbn.
    destruct lines as [|line rest]; [discriminate|].
    intros [= <- <-]. eexists.
    split;
      [unfold save_missing_exif_data; cbn;
       destruct (writable w); cbn; apply lookup_insert_eq
      |reflexivity].
Qed.

End ResolverFacts.

(** On ASCII text the loop and the method over the built-ins are the ones
    above. *)
Lemma read_focal_ascii (float : string -> option Q) (name : string)
    (lines : list string) (out : list event) :
  Py.read_focal strip float name lines out =
    (let '(e, rest, out') := read_focal float name lines out in
     (py_exit e, rest, out')).
Proof.
  revert out.
  induction lines as [|line rest IH]; intros out;
    cbn [Py.read_focal read_focal].
  - reflexivity.
  - destruct (falsy (Some (strip line))); [reflexivity|].
    destruct (float (strip line)); [reflexivity|apply IH].
Qed.

Lemma handle_missing_exif_ascii (float : string -> option Q)
    (image_path : string) (w : World) :
  Py.handle_missing_exif strip float image_path w =
    handle_missing_exif float image_path w.
Proof.
  unfold Py.handle_missing_exif, handle_missing_exif.
  destruct (missing_exif_data w !! basename image_path); [reflexivity|].
  rewrite read_focal_ascii.
  destruct (read_focal _ _ _ _) as [[[f| |] lines] out]; reflexivity.
Qed.

(** A fresh elicitation, the lines trimmed by the built-in. *)
Lemma handle_missing_exif_fresh (str_strip : string -> string)
    (float : string -> option Q) image_path w f line rest out :
  let name := basename image_path in
  missing_exif_data w !! name = None ->
  Py.read_focal str_strip float name (stdin w)
    (console (print EnterManually (print (MissingExif name) w))) =
    (Py.Got f, line :: rest, out) ->
  Py.handle_missing_exif str_strip float image_path w =
    (Ok (Some (f * default 1 (sensor_crop_factors !! str_strip line))),
     save_missing_exif_data
       (set_entry name (elicited_by str_strip f line w)
          (with_io rest (out ++ [Printed SensorMenu] ++ [Asked AskSensor])
             w))).
Proof.
  intros name Hnone Hloop. unfold Py.handle_missing_exif. fold name.
  rewrite Hnone. destruct w as [store dk wr lines con clock].
  cbn in Hloop |- *. rewrite Hloop.
  unfold bind, input, print, emit, with_io. cbn.
  rewrite <- ?app_assoc. reflexivity.
Qed.

(** C2: the code does not round.  Typing 8.88 and choosing sensor 1
    returns and stores 8.88, where one decimal place would give 8.9. *)
Lemma handle_missing_exif_not_rounded :
  let w := init Absent true ["8.88"; "1"] "2025-01-01T12:00:00" in
  let out := handle_missing_exif decimal "holiday/IMG_0001.jpg" w in
  fst out = Ok (Some (888 # 100)) /\
  Elicited.equivalent_focal <$>
    (missing_exif_data (snd out) !! "IMG_0001.jpg") = Some (888 # 100) /\
  disk (snd out) = Content (missing_exif_data (snd out)) /\
  round1 ((888 # 100) * 1) = 89 # 10 /\
  ~ 888 # 100 == 89 # 10.
Proof. vm_compute. repeat split; discriminate. Qed.

(** C8.  For an image whose file name is a key of the store,
    [handle_missing_exif] returns the stored equivalent focal length; it
    reads no line, asks nothing, and leaves the store and the file as they
    were.  An entry elicited and saved in one run is returned in the same way
    by a run that starts from the saved file. *)
Theorem handle_missing_exif_cached
    (float : string -> option Q) (image_path : string) :
  let name := basename image_path in
  (forall w data,
     missing_exif_data w !! name = Some data ->
     let out := handle_missing_exif float image_path w in
     fst out = Ok (Some (Elicited.equivalent_focal data)) /\
     stdin (snd out) = stdin w /\
     missing_exif_data (snd out) = missing_exif_data w /\
     disk (snd out) = disk w /\
     console (snd out) = console w ++ [Printed (UsingSaved name)]) /\
  (forall w e w1 can_write lines clock,
     missing_exif_data w !! name = None ->
     writable w = true ->
     handle_missing_exif float image_path w = (Ok (Some e), w1) ->
     let w2 := init (disk w1) can_write lines clock in
     let out := handle_missing_exif float image_path w2 in
     fst out = Ok (Some e) /\
     stdin (snd out) = lines /\
     missing_exif_data (snd out) = missing_exif_data w2 /\
     console (snd out) = [Printed (UsingSaved name)]).
Proof.
  intros name. split.
  - intros w data H out. subst out.
    rewrite (handle_missing_exif_stored float image_path w data H).
    repeat split.
  - intros w e w1 can_write lines clock Hnone Hwr Hrun w2 out.
    assert (Hdisk : exists data,
              disk w1 = Content (<[name := data]> (missing_exif_data w)) /\
              Elicited.equivalent_focal data = e).
    { revert Hrun. unfold handle_missing_exif. fold name. rewrite Hnone.
      destruct (read_focal _ _ _ _) as [[[f| |] ls] o]; [|discriminate..].
      unfold bind, input. cbn. destruct ls as [|line rest]; [discriminate|].
      unfold save_missing_exif_data. cbn. rewrite Hwr. cbn.
      intros [= <- <-]. eexists. split; reflexivity. }
    destruct Hdisk as (data & Hd & He).
    assert (Hs : missing_exif_data w2 !! name = Some data).
    { subst w2. cbn. rewrite Hd. cbn. apply lookup_insert_eq. }
    subst out.
    rewrite (handle_missing_exif_stored float image_path w2 data Hs).
    subst w2. rewrite Hd, He. repeat split.
Qed.

Lemma handle_missing_exif_cached_witness :
  fst (handle_missing_exif decimal "trip/IMG_0042.jpg"
         (init (disk (snd (handle_missing_exif decimal "trip/IMG_0042.jpg"
                             (init Absent true ["35"; "2"] "t1"))))
               true [] "t2")) =
  Ok (Some (105 # 2)).
Proof.
  apply (proj2 (handle_missing_exif_cached decimal "trip/IMG_0042.jpg")
           (init Absent true ["35"; "2"] "t1") (105 # 2)
           (snd (handle_missing_exif decimal "trip/IMG_0042.jpg"
                   (init Absent true ["35"; "2"] "t1")))
           true [] "t2");
    reflexivity.
Defined.

(** C9, as the specification words it, fails for a code typed with blanks
    around it: the line [" 2"] is none of the five codes, yet it selects
    APS-C and the crop factor 3/2 is used. *)
Lemma padded_sensor_choice_accepted :
  let out :=
    handle_missing_exif decimal "trip/IMG_0007.jpg"
      (init Absent true ["35"; " 2"] "t") in
  ~ In " 2" ["1"; "2"; "3"; "4"; "5"] /\
  fst out = Ok (Some (35 * (3 # 2))) /\
  Elicited.crop_factor <$> (missing_exif_data (snd out) !! "IMG_0007.jpg") =
    Some (3 # 2) /\
  ~ 3 # 2 == 1.
Proof.
  split; [cbn; intros [H|[H|[H|[H|[H|[]]]]]]; discriminate H|].
  vm_compute. repeat split; discriminate.
Qed.

(** C9, amended.  When the line answering the sensor menu is, once
    [str.strip] has trimmed it, none of the five codes (the empty line
    included), the crop factor 1 is used: the call returns the focal length
    times 1 and stores it with crop factor 1, it has read exactly that one
    line for the menu, and it prints nothing but the menu and the outcome of
    saving. *)
Theorem invalid_sensor_choice_defaults
    (str_strip : string -> string) (float : string -> option Q)
    (image_path : string) (w : World)
    (f : Q) (line : string) (rest : list string) (out : list event) :
  let name := basename image_path in
  missing_exif_data w !! name = None ->
  Py.read_focal str_strip float name (stdin w)
    (console (print EnterManually (print (MissingExif name) w))) =
    (Py.Got f, line :: rest, out) ->
  ~ In (str_strip line) ["1"; "2"; "3"; "4"; "5"] ->
  exists w',
    Py.handle_missing_exif str_strip float image_path w =
      (Ok (Some (f * 1)), w') /\
    Elicited.crop_factor <$> (missing_exif_data w' !! name) = Some 1 /\
    stdin w' = rest /\
    console w' =
      out ++ [Printed SensorMenu; Asked AskSensor;
              Printed (if writable w then Saved else SaveFailed)].
Proof.
  intros name Hnone Hloop Hbad.
  assert (Hc : sensor_crop_factors !! str_strip line = None).
  { destruct (sensor_crop_factors !! str_strip line) as [c|] eqn:E;
      [|reflexivity].
    apply sensor_codes in E. contradiction. }
  eexists. split.
  - rewrite (handle_missing_exif_fresh str_strip float image_path w f line
               rest out Hnone Hloop).
    rewrite Hc. reflexivity.
  - unfold save_missing_exif_data, elicited_by. rewrite Hc. cbn.
    destruct (writable w); cbn;
      (split; [rewrite lookup_insert_eq; reflexivity|]);
      (split; [reflexivity|]); rewrite <- ?app_assoc; reflexivity.
Qed.

Lemma invalid_sensor_choice_defaults_witness :
  exists w',
    Py.handle_missing_exif strip decimal "trip/IMG_0007.jpg"
      (init Absent true ["wide"; "35"; ""; "9"] "t") =
      (Ok (Some (35 * 1)), w') /\
    Elicited.crop_factor <$> (missing_exif_data w' !! "IMG_0007.jpg") =
      Some 1 /\
    stdin w' = ["9"] /\
    console w' =
      [Printed (MissingExif "IMG_0007.jpg"); Printed EnterManually;
       Asked AskFocal; Printed InvalidNumber; Asked AskFocal] ++
      [Printed SensorMenu; Asked AskSensor; Printed Saved].
Proof.
  apply (invalid_sensor_choice_defaults strip decimal "trip/IMG_0007.jpg"
           (init Absent true ["wide"; "35"; ""; "9"] "t") 35 "" ["9"]
           [Printed (MissingExif "IMG_0007.jpg"); Printed EnterManually;
            Asked AskFocal; Printed InvalidNumber; Asked AskFocal]).
  - reflexivity.
  - reflexivity.
  - cbn. intros [H|[H|[H|[H|[H|[]]]]]]; discriminate H.
Defined.

(** ** Identifiers of the rows *)

(** C10.  A row built from decoded metadata is identified by the path
    relative to the input folder; a row built from an elicited value is
    identified by the base name, the key of the store as well.  Hence of two
    images without metadata that have the same base name, the second is
    answered from the entry of the first: same number, no line read, nothing
    asked, the store unchanged. *)
Theorem same_basename_shares_entry
    (crop_factors : gmap string Q) (focal_groups : list (string * (Z * Z)))
    (float : string -> option Q) (input_folder : string)
    (relpath : string -> string -> string) (decode : string -> decoded) :
  (forall root name rows missing w f model w',
     is_supported name = true ->
     extract_exif_data decode (join root name)
       (print (Processing (relpath (join root name) input_folder)) w) =
       ((Some f, model), w') ->
     exists row,
       scan_file crop_factors focal_groups input_folder relpath decode
         root name (rows, missing, w) = (rows ++ [row], missing, w') /\
       filename row = relpath (join root name) input_folder) /\
  (forall image_path rows w e w',
     handle_missing_exif float image_path w = (Ok (Some e), w') ->
     exists row,
       resolve_file focal_groups float image_path rows w =
         (Ok (rows ++ [row]), w') /\
       filename row = basename image_path /\
       equivalent_focal row = Some e /\
       is_Some (missing_exif_data w' !! basename image_path)) /\
  (forall first second w e w1,
     basename first = basename second ->
     handle_missing_exif float first w = (Ok (Some e), w1) ->
     let out := handle_missing_exif float second w1 in
     fst out = Ok (Some e) /\
     stdin (snd out) = stdin w1 /\
     missing_exif_data (snd out) = missing_exif_data w1 /\
     console (snd out) =
       console w1 ++ [Printed (UsingSaved (basename second))]).
Proof.
  split; [|split].
  - intros root name rows missing w f model w' Hsup Hex.
    eexists. unfold scan_file. rewrite Hsup, Hex. split; reflexivity.
  - intros image_path rows w e w' Hrun.
    eexists. unfold resolve_file, bind. rewrite Hrun.
    repeat split.
    destruct (handle_missing_exif_post float image_path w e w' Hrun)
      as (data & Hd & _).
    rewrite Hd. eexists. reflexivity.
  - intros first second w e w1 Hname Hrun out. subst out.
    destruct (handle_missing_exif_post float first w e w1 Hrun)
      as (data & Hd & He).
    rewrite Hname in Hd.
    rewrite (handle_missing_exif_stored float second w1 data Hd), He.
    repeat split.
Qed.

Lemma same_basename_shares_entry_witness :
  fst (handle_missing_exif decimal "photos/b/IMG_1.jpg"
         (snd (handle_missing_exif decimal "photos/a/IMG_1.jpg"
                 (init Absent true ["35"; "2"; "85"; "1"] "t")))) =
  Ok (Some (105 # 2)).
Proof.
  apply (proj2 (proj2 (same_basename_shares_entry
                         ∅ _define_focal_groups decimal "photos"
                         relpath_below demo_decode))
           "photos/a/IMG_1.jpg" "photos/b/IMG_1.jpg"
           (init Absent true ["35"; "2"; "85"; "1"] "t") (105 # 2)
           (snd (handle_missing_exif decimal "photos/a/IMG_1.jpg"
                   (init Absent true ["35"; "2"; "85"; "1"] "t"))));
    reflexivity.
Defined.

(** The whole of [analyze_folder] on a folder with [a/IMG_1.jpg] and
    [b/IMG_1.jpg], both without metadata: one question is asked, both rows
    carry the answer under the same identifier, and one entry is stored. *)
Example analyze_folder_same_basename :
  let run :=
    analyze_folder {[ "canon eos 7d" := 8 # 5 ]} _define_focal_groups decimal
      "photos"
      [ ("photos/a", ["IMG_1.jpg"]);
        ("photos/b", ["IMG_1.JPG"; "IMG_1.jpg"; "IMG_2.jpg"; "._IMG_2.jpg";
                      "notes.txt"]) ]
      relpath_below demo_decode
      (init Absent true ["35"; "2"; "85"; "1"] "t") in
  identifiers (fst run) =
    Some [ ("b/IMG_2.jpg", Some (800 # 10), "人像 (85mm)");
           ("IMG_1.jpg", Some (105 # 2), "标准 (50mm)");
           ("IMG_1.JPG", Some 85, "人像 (85mm)");
           ("IMG_1.jpg", Some (105 # 2), "标准 (50mm)") ] /\
  stdin (snd run) = [] /\
  size (missing_exif_data (snd run)) = 2%nat.
Proof. vm_compute. repeat split. Qed.

(** ** Counting and sorting *)

Section CountsFacts.

Context {K : Type} (E : relation K) `{!Equivalence E}.
Variables same leb : K -> K -> bool.
Hypothesis same_spec : forall a b, same a b = true <-> E a b.
Hypothesis leb_total : forall a b, leb a b = true \/ leb b a = true.
Hypothesis leb_trans :
  forall a b c, leb a b = true -> leb b c = true -> leb a c = true.

Lemma has_key_cons k a l :
  has_key E k (a :: l) <-> E k a \/ has_key E k l.
Proof.
  unfold has_key. split.
  - intros (k' & [->|Hin]%elem_of_cons & He); [now left|right; eauto].
  - intros [He|(k' & Hin & He)].
    + exists a. split; [left|assumption].
    + exists k'. split; [now right|assumption].
Qed.

Lemma has_key_perm k l l' : l ≡ₚ l' -> has_key E k l -> has_key E k l'.
Proof.
  intros P (k' & Hin & He). exists k'. split; [|assumption].
  rewrite <- P. assumption.
Qed.

Lemma distinct_perm l l' : l ≡ₚ l' -> distinct E l -> distinct E l'.
Proof.
  induction 1 as [|x l l' P IH|x y l|l l' l'' _ IH1 _ IH2]; intros D.
  - constructor.
  - inversion D as [|? ? Hx Dl]; subst. constructor; [|auto].
    intros Hk. apply Hx. apply (has_key_perm x l' l); [|assumption].
    symmetry. assumption.
  - inversion D as [|? ? Hy Dxl]; subst.
    inversion Dxl as [|? ? Hx Dl]; subst.
    constructor; [|constructor; [|assumption]].
    + rewrite has_key_cons. intros [He|Hk]; [|contradiction].
      apply Hy. rewrite has_key_cons. left. symmetry. assumption.
    + intros Hk. apply Hy. rewrite has_key_cons. now right.
  - auto.
Qed.

Lemma tally_add_keys k k0 acc :
  has_key E k (index (tally_add same k0 acc)) <->
  E k k0 \/ has_key E k (index acc).
Proof.
  induction acc as [|[k' n] acc IH]; cbn.
  - rewrite has_key_cons. unfold has_key. split; [|tauto].
    intros [?|(? & []%elem_of_nil & _)]. now left.
  - destruct (same k' k0) eqn:S; cbn; rewrite !has_key_cons.
    + apply same_spec in S. split; [tauto|].
      intros [He|H]; [left; etransitivity; [exact He|now symmetry]|exact H].
    + rewrite IH. tauto.
Qed.

Lemma tally_add_distinct k0 acc :
  distinct E (index acc) -> distinct E (index (tally_add same k0 acc)).
Proof.
  induction acc as [|[k' n] acc IH]; cbn; intros D.
  - constructor; [|constructor]. intros (? & []%elem_of_nil & _).
  - inversion D as [|? ? Hk' Dacc]; subst.
    destruct (same k' k0) eqn:S; cbn; [constructor; assumption|].
    constructor; [|auto].
    intros Hk. apply (proj1 (tally_add_keys k' k0 acc)) in Hk.
    destruct Hk as [He|Hk]; [|contradiction].
    apply same_spec in He. congruence.
Qed.

Lemma fold_tally_keys k l acc :
  has_key E k (index (fold_left (fun acc k => tally_add same k acc) l acc))
  <-> has_key E k l \/ has_key E k (index acc).
Proof.
  revert acc. induction l as [|a l IH]; intros acc; cbn [fold_left].
  - split; [tauto|]. intros [(? & []%elem_of_nil & _)|H]. exact H.
  - rewrite IH, tally_add_keys, has_key_cons. tauto.
Qed.

Lemma fold_tally_distinct l acc :
  distinct E (index acc) ->
  distinct E (index (fold_left (fun acc k => tally_add same k acc) l acc)).
Proof.
  revert acc. induction l as [|a l IH]; intros acc D; cbn [fold_left];
    [exact D|].
  apply IH, tally_add_distinct, D.
Qed.

Lemma stats_perm l :
  index (sort_index leb (value_counts same l)) ≡ₚ index (tally same l).
Proof.
  unfold index, sort_index, value_counts.
  apply fmap_Permutation.
  rewrite !merge_sort_Permutation. reflexivity.
Qed.

Lemma stats_keys k l :
  has_key E k (index (sort_index leb (value_counts same l))) <->
  has_key E k l.
Proof.
  split.
  - intros H. apply (has_key_perm _ _ _ (stats_perm l)) in H.
    apply fold_tally_keys in H as [H|(? & []%elem_of_nil & _)]. exact H.
  - intros H. apply (has_key_perm k (index (tally same l)));
      [symmetry; apply stats_perm|].
    apply fold_tally_keys. now left.
Qed.

Lemma stats_distinct l :
  distinct E (index (sort_index leb (value_counts same l))).
Proof.
  apply (distinct_perm (index (tally same l)));
    [symmetry; apply stats_perm|].
  apply fold_tally_distinct. constructor.
Qed.

Lemma stats_sorted l :
  StronglySorted (fun a b => leb a b = true)
    (index (sort_index leb (value_counts same l))).
Proof.
  unfold index, sort_index.
  apply (StronglySorted_fmap fst (by_key leb)).
  - unfold by_key. intros x y H. apply Is_true_true. exact H.
  - apply StronglySorted_merge_sort.
    + intros x y z. unfold by_key. rewrite !Is_true_true. apply leb_trans.
    + intros x y. unfold by_key. rewrite !Is_true_true. apply leb_total.
Qed.

(** Sorted and without repetition is strictly sorted. *)
Lemma sorted_distinct_strict l :
  StronglySorted (fun a b => leb a b = true) l -> distinct E l ->
  StronglySorted (fun a b => leb a b = true /\ ~ E a b) l.
Proof.
  induction 1 as [|a l Hs IH Hall]; intros D; constructor;
    inversion D as [|? ? Ha Dl]; subst; [auto|].
  rewrite Forall_forall in Hall |- *. intros b Hb. split; [auto|].
  intros He. apply Ha. exists b. split; assumption.
Qed.

Lemma stats_strict l :
  StronglySorted (fun a b => leb a b = true /\ ~ E a b)
    (index (sort_index leb (value_counts same l))).
Proof.
  apply sorted_distinct_strict; [apply stats_sorted|apply stats_distinct].
Qed.

End CountsFacts.

(** The order of [str]: lexicographic in the characters' codes. *)
Lemma string_leb_trans (a b c : string) :
  String.leb a b = true -> String.leb b c = true -> String.leb a c = true.
Proof.
  unfold String.leb. revert b c.
  induction a as [|x a IH]; intros [|y b] [|z c]; simpl; try easy.
  unfold Ascii.compare.
  destruct (N.compare_spec (N_of_ascii x) (N_of_ascii y)) as [Exy|Lxy|Gxy];
    destruct (N.compare_spec (N_of_ascii y) (N_of_ascii z)) as [Eyz|Lyz|Gyz];
    destruct (N.compare_spec (N_of_ascii x) (N_of_ascii z)) as [Exz|Lxz|Gxz];
    try easy; try lia.
  apply IH.
Qed.

Lemma string_leb_strict (a b : string) :
  String.leb a b = true /\ a <> b -> String.ltb a b = true.
Proof.
  unfold String.leb, String.ltb. intros [Hle Hne].
  destruct (String.compare a b) eqn:C; [|reflexivity|discriminate].
  apply String.compare_eq_iff in C. contradiction.
Qed.

Lemma strongly_sorted_impl {A} (R S : relation A) (l : list A) :
  (forall a b, R a b -> S a b) -> StronglySorted R l -> StronglySorted S l.
Proof.
  intros HRS. induction 1 as [|a l _ IH Hall]; constructor; [assumption|].
  eapply Forall_impl; [exact Hall|]. cbn. auto.
Qed.

Lemma has_key_eq {A} (x : A) (l : list A) : has_key eq x l <-> x ∈ l.
Proof.
  unfold has_key. split; [intros (? & H & ->); exact H|eauto].
Qed.

(** ** The aggregator *)

(** C1: the suggestion is the smallest key, not the most frequent one.  Of
    three images at 24, 50 and 50 mm, the group and the value reported
    occur once, while another group and another value occur twice. *)
Lemma upgrade_suggestion_not_most_used :
  exists stats,
    generate_statistics
      [manual_record "a.jpg" 24; manual_record "b.jpg" 50;
       manual_record "c.jpg" 50] = Some stats /\
    most_used_group stats = Some "广角 (24-28mm)" /\
    count_of String.eqb "广角 (24-28mm)" (group_stats stats) = 1%nat /\
    count_of String.eqb "标准 (50mm)" (group_stats stats) = 2%nat /\
    most_used_focal stats = Some 24 /\
    count_of Qeq_bool 24 (focal_stats stats) = 1%nat /\
    count_of Qeq_bool 50 (focal_stats stats) = 2%nat.
Proof. eexists. split; [reflexivity|]. vm_compute. repeat split. Qed.

(** C3, as the specification words it, fails for the groups: rows at 16 and
    24 mm list the group of 24 before the group of 16, while the table
    defines them the other way round. *)
Lemma group_stats_not_in_defined_order :
  exists stats,
    generate_statistics [manual_record "a.jpg" 16; manual_record "b.jpg" 24]
      = Some stats /\
    index (group_stats stats) = ["广角 (24-28mm)"; "超广角(14-19mm)"] /\
    defined_order (index (group_stats stats)) =
      ["超广角(14-19mm)"; "广角 (24-28mm)"] /\
    index (group_stats stats) <> defined_order (index (group_stats stats)).
Proof.
  eexists. split; [reflexivity|]. vm_compute. repeat split. discriminate.
Qed.

(** C3, amended.  From a non-empty sequence of rows [generate_statistics]
    produces a result whose grouped counts iterate over exactly the labels
    present, in strictly ascending order of the label strings (the order of
    the characters' codes, not the order of the table), and whose per-value
    counts iterate over exactly the values present, in strictly ascending
    numeric order. *)
Theorem generate_statistics_order (rows : list ImageRecord) :
  rows <> [] ->
  exists stats,
    generate_statistics rows = Some stats /\
    StronglySorted (fun a b => String.ltb a b = true)
      (index (group_stats stats)) /\
    (forall l,
       l ∈ index (group_stats stats) <-> l ∈ map focal_group rows) /\
    StronglySorted Qlt (index (focal_stats stats)) /\
    (forall x, has_key Qeq x (index (focal_stats stats)) <->
               has_key Qeq x (focal_column rows)).
Proof.
  intros Hne. destruct rows as [|r rows]; [contradiction|].
  eexists. split; [reflexivity|]. cbn [group_stats focal_stats].
  set (df := r :: rows).
  split; [|split; [|split]].
  - apply (strongly_sorted_impl
             (fun a b => String.leb a b = true /\ a <> b)).
    + apply string_leb_strict.
    + apply (stats_strict eq String.eqb String.leb).
      * apply String.eqb_eq.
      * apply String.leb_total.
      * apply string_leb_trans.
  - intros l. rewrite <- !has_key_eq.
    apply (stats_keys eq String.eqb String.leb). apply String.eqb_eq.
  - apply (strongly_sorted_impl
             (fun a b => Qle_bool a b = true /\ ~ a == b)).
    + intros a b [Hle Hne']. apply Qle_bool_iff in Hle.
      apply Qle_lt_or_eq in Hle as [Hlt|Heq]; [exact Hlt|contradiction].
    + apply (stats_strict Qeq Qeq_bool Qle_bool).
      * apply Qeq_bool_iff.
      * intros a b. rewrite !Qle_bool_iff.
        destruct (Qlt_le_dec a b) as [H|H]; [left; apply Qlt_le_weak|right];
          exact H.
      * intros a b c. rewrite !Qle_bool_iff. apply Qle_trans.
  - intros x. apply (stats_keys Qeq Qeq_bool Qle_bool). apply Qeq_bool_iff.
Qed.

Lemma generate_statistics_order_witness :
  exists stats,
    generate_statistics [manual_record "a.jpg" 10; manual_record "b.jpg" 9]
      = Some stats /\
    index (focal_stats stats) = [9; 10] /\
    index (group_stats stats) = ["10mm"; "9mm"].
Proof.
  destruct (generate_statistics_order
              [manual_record "a.jpg" 10; manual_record "b.jpg" 9]
              ltac:(discriminate)) as (stats & Hs & _).
  exists stats. split; [exact Hs|].
  injection Hs as <-. vm_compute. split; reflexivity.
Defined.

(** * Further properties of the code *)

(** ** The loop that asks for the focal length *)

Lemma truthy (s : string) : s <> "" -> falsy (Some s) = false.
Proof. destruct s; [contradiction|reflexivity]. Qed.

Lemma read_focal_retry {num : Type} (str_strip : string -> string)
    (float : string -> option num) (name : string)
    (bad tail : list string) (out : list event) :
  Forall (fun l => str_strip l <> "" /\ float (str_strip l) = None) bad ->
  Py.read_focal str_strip float name (bad ++ tail) out =
    Py.read_focal str_strip float name tail (out ++ retries bad).
Proof.
  intros Hbad. revert out.
  induction Hbad as [|l bad [Hne Hno] _ IH]; intros out.
  - cbn. rewrite app_nil_r. reflexivity.
  - cbn [app Py.read_focal]. rewrite (truthy _ Hne), Hno, IH.
    unfold retries. cbn [flat_map]. rewrite <- !app_assoc. reflexivity.
Qed.

(** X1.  [handle_missing_exif], the [while True] loop, for [str.strip] and
    [float] as the built-ins define them and any type of numbers.  Lines
    whose trimmed form is neither empty nor accepted by [float] are each
    answered by the complaint and a new prompt.  The loop ends at the first
    line that [float] accepts, with its value; at the first line that is
    empty once trimmed, with the skip; and when the input ends, with
    [EOFError]; in each case exactly the lines up to that point have been
    read. *)
Theorem read_focal_outcomes {num : Type} (str_strip : string -> string)
    (float : string -> option num) (name : string)
    (bad : list string) (last : string) (rest : list string)
    (out : list event) :
  Forall (fun l => str_strip l <> "" /\ float (str_strip l) = None) bad ->
  (forall f, str_strip last <> "" -> float (str_strip last) = Some f ->
     Py.read_focal str_strip float name (bad ++ last :: rest) out =
       (Py.Got f, rest, out ++ retries bad ++ [Asked AskFocal])) /\
  (str_strip last = "" ->
     Py.read_focal str_strip float name (bad ++ last :: rest) out =
       (Py.Skip, rest,
        out ++ retries bad ++
          [Asked AskFocal; Printed (SkippedImage name)])) /\
  Py.read_focal str_strip float name bad out =
    (Py.Eof, [], out ++ retries bad ++ [Asked AskFocal]).
Proof.
  intros Hbad. repeat split.
  - intros f Hne Hf. rewrite (read_focal_retry _ _ _ _ _ _ Hbad).
    cbn [Py.read_focal]. rewrite (truthy _ Hne), Hf, <- app_assoc.
    reflexivity.
  - intros Hblank. rewrite (read_focal_retry _ _ _ _ _ _ Hbad).
    cbn [Py.read_focal]. rewrite Hblank. cbn. rewrite <- !app_assoc.
    reflexivity.
  - rewrite <- (app_nil_r bad) at 1.
    rewrite (read_focal_retry _ _ _ _ _ _ Hbad). cbn.
    rewrite <- app_assoc. reflexivity.
Qed.

Lemma read_focal_outcomes_witness :
  Py.read_focal strip decimal "IMG_1.jpg"
    (["wide"; "f/2"] ++ " 35 " :: ["2"]) [] =
    (Py.Got 35, ["2"],
     [] ++ retries ["wide"; "f/2"] ++ [Asked AskFocal]).
Proof.
  apply (proj1 (read_focal_outcomes strip decimal "IMG_1.jpg"
                  ["wide"; "f/2"] " 35 " ["2"] []
                  ltac:(repeat constructor; discriminate)));
    [discriminate|reflexivity].
Defined.

(** ** What a call does to the store and to the file *)

(** The three ways a call of [handle_missing_exif] can go. *)
Lemma handle_missing_exif_cases (float : string -> option Q)
    (image_path : string) (w : World) (r : result (option Q)) (w' : World) :
  let name := basename image_path in
  handle_missing_exif float image_path w = (r, w') ->
  (exists data,
     missing_exif_data w !! name = Some data /\
     r = Ok (Some (Elicited.equivalent_focal data)) /\
     w' = print (UsingSaved name) w) \/
  (missing_exif_data w !! name = None /\
   (r = Ok None \/ r = Raise EOFError) /\
   missing_exif_data w' = missing_exif_data w /\ disk w' = disk w /\
   writable w' = writable w /\ now w' = now w) \/
  (missing_exif_data w !! name = None /\
   exists f line rest out,
     read_focal float name (stdin w)
       (console (print EnterManually (print (MissingExif name) w))) =
       (Got f, line :: rest, out) /\
     r = Ok (Some (f * default 1 (sensor_crop_factors !! strip line))) /\
     w' = save_missing_exif_data
            (set_entry name (elicited f line w)
               (with_io rest
                  (out ++ [Printed SensorMenu] ++ [Asked AskSensor]) w))).
Proof.
  intros name Hrun.
  destruct (missing_exif_data w !! name) as [data|] eqn:Hs.
  - left. exists data.
    rewrite (handle_missing_exif_stored float image_path w data Hs) in Hrun.
    injection Hrun as <- <-. repeat split.
  - right.
    destruct (read_focal float name (stdin w)
                (console (print EnterManually (print (MissingExif name) w))))
      as [[[f| |] lines] out] eqn:Hloop.
    + destruct lines as [|line rest].
      * left. revert Hrun. unfold handle_missing_exif. fold name.
        rewrite Hs. cbn [stdin console print emit] in Hloop |- *.
        rewrite Hloop. unfold bind, input. cbn.
        intros [= <- <-]. cbn. tauto.
      * right. split; [reflexivity|]. exists f, line, rest, out.
        rewrite (handle_missing_exif_elicited float image_path w f line rest
                   out Hs Hloop) in Hrun.
        injection Hrun as <- <-. repeat split.
    + left. revert Hrun. unfold handle_missing_exif. fold name.
      rewrite Hs. cbn [stdin console print emit] in Hloop |- *.
      rewrite Hloop. intros [= <- <-]. cbn. tauto.
    + left. revert Hrun. unfold handle_missing_exif. fold name.
      rewrite Hs. cbn [stdin console print emit] in Hloop |- *.
      rewrite Hloop. intros [= <- <-]. cbn. tauto.
Qed.

Lemma save_fields (w : World) :
  missing_exif_data (save_missing_exif_data w) = missing_exif_data w /\
  writable (save_missing_exif_data w) = writable w /\
  now (save_missing_exif_data w) = now w /\
  stdin (save_missing_exif_data w) = stdin w /\
  disk (save_missing_exif_data w) =
    (if writable w then Content (missing_exif_data w) else disk w).
Proof.
  unfold save_missing_exif_data. destruct (writable w) eqn:E; cbn;
    rewrite ?E; repeat split.
Qed.

(** X2.  [handle_missing_exif] and the store.  A call keeps every entry the store
    has and touches no key but the image's base name.  Unless it returns a
    number, store and file are exactly as before; when it returns a number,
    that number is what the store now holds under the base name. *)
Theorem handle_missing_exif_store (float : string -> option Q)
    (image_path : string) (w : World) (r : result (option Q)) (w' : World) :
  handle_missing_exif float image_path w = (r, w') ->
  let name := basename image_path in
  (forall k data,
     missing_exif_data w !! k = Some data ->
     missing_exif_data w' !! k = Some data) /\
  (forall k, k <> name ->
     missing_exif_data w' !! k = missing_exif_data w !! k) /\
  ((forall e, r <> Ok (Some e)) ->
   missing_exif_data w' = missing_exif_data w /\ disk w' = disk w) /\
  (forall e, r = Ok (Some e) ->
     Elicited.equivalent_focal <$> (missing_exif_data w' !! name) = Some e).
Proof.
  intros Hrun name.
  destruct (handle_missing_exif_cases float image_path w r w' Hrun)
    as [(data & Hs & -> & ->)|[(Hs & Hr & Hst & Hd & _)|
        (Hs & f & line & rest & out & _ & -> & ->)]]; fold name in Hs.
  - cbn. split; [auto|]. split; [auto|]. split.
    + intros H. exfalso. apply (H _ eq_refl).
    + intros e [= <-]. rewrite Hs. reflexivity.
  - rewrite Hst. split; [auto|]. split; [auto|]. split; [auto|].
    intros e ->. destruct Hr; discriminate.
  - match goal with
    | |- context [save_missing_exif_data ?v] =>
        destruct (save_fields v) as (-> & _)
    end.
    cbn [set_entry missing_exif_data]. fold name.
    split; [|split; [|split]].
    + intros k data Hk. rewrite lookup_insert_ne; [exact Hk|].
      intros <-. congruence.
    + intros k Hk. apply lookup_insert_ne. congruence.
    + intros H. exfalso. apply (H _ eq_refl).
    + intros e [= <-]. rewrite lookup_insert_eq. reflexivity.
Qed.

Lemma handle_missing_exif_store_witness :
  Elicited.equivalent_focal <$>
    (missing_exif_data
       (snd (handle_missing_exif decimal "trip/IMG_3.jpg"
               (init Absent true ["85"; "3"] "t"))) !! "IMG_3.jpg") =
  Some (85 * (8 # 5)).
Proof.
  apply (proj2 (proj2 (proj2 (handle_missing_exif_store decimal
           "trip/IMG_3.jpg" (init Absent true ["85"; "3"] "t")
           (Ok (Some (85 * (8 # 5))))
           (snd (handle_missing_exif decimal "trip/IMG_3.jpg"
                   (init Absent true ["85"; "3"] "t")))
           eq_refl))));
    reflexivity.
Defined.

(** X3.  [handle_missing_exif] and the file.  While the file can be written, a
    call keeps the file in step with the store: what is on disk reloads to
    the store held in memory, whatever the outcome of the call. *)
Theorem handle_missing_exif_in_sync (float : string -> option Q)
    (image_path : string) (w : World) (r : result (option Q)) (w' : World) :
  writable w = true -> in_sync w ->
  handle_missing_exif float image_path w = (r, w') ->
  writable w' = true /\ in_sync w'.
Proof.
  intros Hwr Hsync Hrun. unfold in_sync in *.
  destruct (handle_missing_exif_cases float image_path w r w' Hrun)
    as [(data & Hs & -> & ->)|[(Hs & Hr & Hst & Hd & Hw & _)|
        (Hs & f & line & rest & out & _ & -> & ->)]].
  - cbn. split; assumption.
  - rewrite Hst, Hd, Hw. split; assumption.
  - match goal with
    | |- context [save_missing_exif_data ?v] =>
        destruct (save_fields v) as (-> & -> & _ & _ & ->)
    end.
    cbn [set_entry with_io writable missing_exif_data]. rewrite Hwr.
    split; reflexivity.
Qed.

Lemma handle_missing_exif_in_sync_witness :
  in_sync (snd (handle_missing_exif decimal "trip/IMG_3.jpg"
                  (init Corrupt true ["85"; "3"] "t"))).
Proof.
  apply (proj2 (handle_missing_exif_in_sync decimal "trip/IMG_3.jpg"
                  (init Corrupt true ["85"; "3"] "t")
                  (fst (handle_missing_exif decimal "trip/IMG_3.jpg"
                          (init Corrupt true ["85"; "3"] "t")))
                  (snd (handle_missing_exif decimal "trip/IMG_3.jpg"
                          (init Corrupt true ["85"; "3"] "t")))
                  eq_refl eq_refl eq_refl)).
Defined.

(** X4.  [save_missing_exif_data], the [except] branch.  When saving fails, a
    fresh answer is still returned and kept in the store, and the failure
    is the last thing printed. *)
Theorem unwritable_file_keeps_answer (float : string -> option Q)
    (image_path : string) (w : World) (e : Q) (w' : World) :
  writable w = false ->
  missing_exif_data w !! basename image_path = None ->
  handle_missing_exif float image_path w = (Ok (Some e), w') ->
  Elicited.equivalent_focal <$>
    (missing_exif_data w' !! basename image_path) = Some e /\
  last (console w') = Some (Printed SaveFailed).
Proof.
  intros Hwr Hnone Hrun.
  destruct (handle_missing_exif_cases float image_path w _ w' Hrun)
    as [(data & Hs & _)|[(_ & [Hr|Hr] & _)|
        (Hs & f & line & rest & out & _ & He & ->)]];
    [congruence|discriminate..|].
  injection He as ->.
  unfold save_missing_exif_data.
  cbn [set_entry with_io writable]. rewrite Hwr.
  cbn. rewrite lookup_insert_eq, last_snoc. repeat split.
Qed.

Lemma unwritable_file_keeps_answer_witness :
  last (console (snd (handle_missing_exif decimal "trip/IMG_3.jpg"
                        (init Absent false ["85"; "3"] "t")))) =
  Some (Printed SaveFailed).
Proof.
  apply (proj2 (unwritable_file_keeps_answer decimal "trip/IMG_3.jpg"
                  (init Absent false ["85"; "3"] "t") (85 * (8 # 5))
                  (snd (handle_missing_exif decimal "trip/IMG_3.jpg"
                          (init Absent false ["85"; "3"] "t")))
                  eq_refl eq_refl eq_refl)).
Defined.

(** ** Walking the folder *)

Lemma quiet_refl (w : World) : quiet w w.
Proof. repeat split. Qed.

Lemma quiet_trans (w1 w2 w3 : World) :
  quiet w1 w2 -> quiet w2 w3 -> quiet w1 w3.
Proof.
  unfold quiet. intros (A1 & A2 & A3 & A4 & A5) (B1 & B2 & B3 & B4 & B5).
  repeat split; congruence.
Qed.

Lemma quiet_print (m : message) (w : World) : quiet w (print m w).
Proof. repeat split. Qed.

Lemma extract_exif_data_quiet (decode : string -> decoded)
    (image_path : string) (w : World) :
  quiet w (snd (extract_exif_data decode image_path w)).
Proof.
  unfold extract_exif_data.
  destruct (decode image_path) as [| |[[n d|x]|] model]; cbn;
    try apply quiet_refl; try apply quiet_print.
  destruct (d =? 0)%Z; cbn; [apply quiet_print|apply quiet_refl].
Qed.

Section AnalyzerFacts.

Variable crop_factors : gmap string Q.
Variable focal_groups : list (string * (Z * Z)).
Variable float : string -> option Q.
Variable input_folder : string.
Variable relpath : string -> string -> string.
Variable decode : string -> decoded.

Let scan := scan_file crop_factors focal_groups input_folder relpath decode.

(** One file: it is dropped, queued or turned into a labelled row. *)
Lemma scan_file_step root name rows missing w :
  exists rows' missing' w',
    scan root name (rows, missing, w) = (rows', missing', w') /\
    quiet w w' /\
    (List.length rows' + List.length missing' =
     List.length rows + List.length missing +
     List.length (List.filter is_supported [name]))%nat /\
    (Forall (labelled focal_groups) rows ->
     Forall (labelled focal_groups) rows').
Proof.
  subst scan. unfold scan_file. cbn [List.filter].
  destruct (is_supported name) eqn:Hsup.
  - set (path := join root name).
    pose proof (extract_exif_data_quiet decode path
                  (print (Processing (relpath path input_folder)) w)) as Hq.
    destruct (extract_exif_data decode path _) as [[[f|] model] w1];
      cbn [snd] in Hq.
    + eexists _, _, _. split; [reflexivity|].
      split; [eapply quiet_trans; [apply quiet_print|exact Hq]|].
      split; [rewrite length_app; cbn; lia|].
      intros Hrows. apply Forall_app. split; [exact Hrows|].
      constructor; [|constructor]. eexists. split; reflexivity.
    + eexists _, _, _. split; [reflexivity|].
      split; [eapply quiet_trans; [apply quiet_print|exact Hq]|].
      split; [rewrite length_app; cbn; lia|auto].
  - eexists _, _, _. split; [reflexivity|].
    split; [apply quiet_refl|]. split; [cbn; lia|auto].
Qed.

Lemma scan_files_steps root files rows missing w :
  exists rows' missing' w',
    fold_left (fun st name => scan root name st) files (rows, missing, w) =
      (rows', missing', w') /\
    quiet w w' /\
    (List.length rows' + List.length missing' =
     List.length rows + List.length missing +
     List.length (List.filter is_supported files))%nat /\
    (Forall (labelled focal_groups) rows ->
     Forall (labelled focal_groups) rows').
Proof.
  revert rows missing w.
  induction files as [|name files IH]; intros rows missing w.
  - exists rows, missing, w. cbn. repeat split; [lia|auto].
  - destruct (scan_file_step root name rows missing w)
      as (r1 & m1 & w1 & E1 & Q1 & L1 & F1).
    destruct (IH r1 m1 w1) as (r2 & m2 & w2 & E2 & Q2 & L2 & F2).
    exists r2, m2, w2. cbn [fold_left]. rewrite E1.
    split; [exact E2|]. split; [eapply quiet_trans; eassumption|].
    split; [|auto].
    change (name :: files) with ([name] ++ files).
    rewrite List.filter_app, length_app. lia.
Qed.

Lemma scan_dirs_steps walk rows missing w :
  exists rows' missing' w',
    fold_left
      (fun st '(root, files) =>
         fold_left (fun st name => scan root name st) files st)
      walk (rows, missing, w) = (rows', missing', w') /\
    quiet w w' /\
    (List.length rows' + List.length missing' =
     List.length rows + List.length missing +
     List.length (supported_files walk))%nat /\
    (Forall (labelled focal_groups) rows ->
     Forall (labelled focal_groups) rows').
Proof.
  revert rows missing w.
  induction walk as [|[root files] walk IH]; intros rows missing w.
  - exists rows, missing, w. cbn. repeat split; [lia|auto].
  - destruct (scan_files_steps root files rows missing w)
      as (r1 & m1 & w1 & E1 & Q1 & L1 & F1).
    destruct (IH r1 m1 w1) as (r2 & m2 & w2 & E2 & Q2 & L2 & F2).
    exists r2, m2, w2. cbn [fold_left]. rewrite E1.
    split; [exact E2|]. split; [eapply quiet_trans; eassumption|].
    split; [|auto].
    unfold supported_files in *. cbn [map concat snd].
    rewrite List.filter_app, length_app. lia.
Qed.

End AnalyzerFacts.

(** ** The second loop and the whole of [analyze_folder] *)

Lemma handle_missing_exif_frame (float : string -> option Q)
    (image_path : string) (w : World) (r : result (option Q)) (w' : World) :
  handle_missing_exif float image_path w = (r, w') ->
  (forall k data,
     missing_exif_data w !! k = Some data ->
     missing_exif_data w' !! k = Some data) /\
  (writable w = true /\ in_sync w -> writable w' = true /\ in_sync w').
Proof.
  intros Hrun. unfold in_sync.
  destruct (handle_missing_exif_cases float image_path w r w' Hrun)
    as [(data & Hs & -> & ->)|[(Hs & Hr & Hst & Hd & Hw & _)|
        (Hs & f & line & rest & out & _ & -> & ->)]].
  - cbn. split; auto.
  - rewrite Hst, Hd, Hw. split; auto.
  - match goal with
    | |- context [save_missing_exif_data ?v] =>
        destruct (save_fields v) as (-> & -> & _ & _ & ->)
    end.
    cbn [set_entry with_io writable missing_exif_data]. split.
    + intros k data Hk. rewrite lookup_insert_ne; [exact Hk|].
      intros <-. congruence.
    + intros [-> _]. split; reflexivity.
Qed.

Section ResolveFacts.

Variable focal_groups : list (string * (Z * Z)).
Variable float : string -> option Q.

(** What one turn of the second loop returns. *)
Lemma resolve_file_cases image_path rows w r w' :
  resolve_file focal_groups float image_path rows w = (r, w') ->
  exists r0,
    handle_missing_exif float image_path w = (r0, w') /\
    match r0 with
    | Ok None => r = Ok rows
    | Ok (Some e) =>
        exists row,
          r = Ok (rows ++ [row]) /\ labelled focal_groups row /\
          filename row = basename image_path
    | Raise e => r = Raise e
    end.
Proof.
  unfold resolve_file, bind.
  destruct (handle_missing_exif float image_path w) as [[[e|]|x] w1];
    cbn; intros [= <- <-]; eexists; (split; [reflexivity|]); cbn;
    [|reflexivity..].
  eexists. split; [reflexivity|]. split; [|reflexivity].
  eexists. split; reflexivity.
Qed.

Lemma resolve_all_world (P : World -> Prop) :
  (forall image_path w r w',
     P w -> handle_missing_exif float image_path w = (r, w') -> P w') ->
  forall missing rows w r w',
    P w ->
    resolve_all focal_groups float missing rows w = (r, w') -> P w'.
Proof.
  intros HP missing.
  induction missing as [|path missing IH]; intros rows w r w' Hw.
  - cbn. intros [= _ <-]. exact Hw.
  - cbn [resolve_all]. unfold bind at 1.
    destruct (resolve_file focal_groups float path rows w) as [r1 w1] eqn:E.
    destruct (resolve_file_cases path rows w r1 w1 E) as (r0 & Hh & _).
    pose proof (HP path w r0 w1 Hw Hh) as Hw1.
    destruct r1 as [rows1|x].
    + apply IH. exact Hw1.
    + intros [= _ <-]. exact Hw1.
Qed.

Lemma resolve_all_rows missing rows w rows' w' :
  Forall (labelled focal_groups) rows ->
  resolve_all focal_groups float missing rows w = (Ok rows', w') ->
  Forall (labelled focal_groups) rows' /\
  (List.length rows' <= List.length rows + List.length missing)%nat.
Proof.
  revert rows w.
  induction missing as [|path missing IH]; intros rows w Hrows.
  - cbn. intros [= <- _]. split; [exact Hrows|lia].
  - cbn [resolve_all]. unfold bind at 1.
    destruct (resolve_file focal_groups float path rows w) as [r1 w1] eqn:E.
    destruct (resolve_file_cases path rows w r1 w1 E) as (r0 & _ & Hr).
    destruct r1 as [rows1|x]; [|discriminate].
    intros Hrest.
    assert (H1 : Forall (labelled focal_groups) rows1 /\
                 (List.length rows1 <= S (List.length rows))%nat).
    { destruct r0 as [[e|]|x].
      - destruct Hr as (row & [= ->] & Hl & _). split.
        + apply Forall_app. split; [exact Hrows|]. constructor;
            [exact Hl|constructor].
        + rewrite length_app. cbn. lia.
      - injection Hr as ->. split; [exact Hrows|lia].
      - discriminate. }
    destruct H1 as [F1 L1].
    destruct (IH rows1 w1 F1 Hrest) as [F2 L2].
    split; [exact F2|]. cbn [List.length]. lia.
Qed.

End ResolveFacts.

(** X6.  [analyze_folder], the rows it returns.  Every row carries a number and
    the label [group_focal_length] gives that number, so no row has a
    missing value; and there are at most as many rows as files that pass the
    filter. *)
Theorem analyze_folder_rows
    (crop_factors : gmap string Q) (focal_groups : list (string * (Z * Z)))
    (float : string -> option Q) (input_folder : string)
    (walk : list (string * list string))
    (relpath : string -> string -> string) (decode : string -> decoded)
    (w : World) (rows : list ImageRecord) (w' : World) :
  analyze_folder crop_factors focal_groups float input_folder walk relpath
    decode w = (Ok rows, w') ->
  Forall (labelled focal_groups) rows /\
  (List.length rows <= List.length (supported_files walk))%nat.
Proof.
  unfold analyze_folder.
  destruct (scan_dirs_steps crop_factors focal_groups input_folder relpath
              decode walk [] [] (print StartAnalysis w))
    as (rows0 & missing & w0 & E & _ & Hl & Hf).
  unfold scan_folder. rewrite E. cbn in Hl.
  specialize (Hf ltac:(constructor)).
  destruct missing as [|path missing].
  - intros [= <- _]. split; [exact Hf|cbn in Hl; lia].
  - intros Hrun.
    destruct (resolve_all_rows focal_groups float _ _ _ _ _ Hf Hrun)
      as [F L].
    split; [exact F|lia].
Qed.

Lemma analyze_folder_rows_witness :
  Forall (labelled _define_focal_groups)
    (rows_of (fst (demo_run ["35"; "2"; "85"; "1"]))) /\
  (List.length (rows_of (fst (demo_run ["35"; "2"; "85"; "1"]))) <=
   List.length (supported_files demo_walk))%nat.
Proof.
  apply (analyze_folder_rows {[ "canon eos 7d" := 8 # 5 ]}
           _define_focal_groups decimal "photos" demo_walk relpath_below
           demo_decode (init Absent true ["35"; "2"; "85"; "1"] "t")
           (rows_of (fst (demo_run ["35"; "2"; "85"; "1"])))
           (snd (demo_run ["35"; "2"; "85"; "1"]))).
  vm_compute. reflexivity.
Defined.

(** X7.  [analyze_folder], the store and the file.  Whatever its outcome, also
    when the input ends in the middle, a run keeps every entry the store
    had; and while the file can be written, the file still reloads to the
    store held in memory: no answer given before is lost. *)
Theorem analyze_folder_keeps_answers
    (crop_factors : gmap string Q) (focal_groups : list (string * (Z * Z)))
    (float : string -> option Q) (input_folder : string)
    (walk : list (string * list string))
    (relpath : string -> string -> string) (decode : string -> decoded)
    (w : World) (r : result (list ImageRecord)) (w' : World) :
  analyze_folder crop_factors focal_groups float input_folder walk relpath
    decode w = (r, w') ->
  (forall k data,
     missing_exif_data w !! k = Some data ->
     missing_exif_data w' !! k = Some data) /\
  (writable w = true -> in_sync w -> writable w' = true /\ in_sync w').
Proof.
  unfold analyze_folder.
  destruct (scan_dirs_steps crop_factors focal_groups input_folder relpath
              decode walk [] [] (print StartAnalysis w))
    as (rows0 & missing & w0 & E & (Q1 & Q2 & Q3 & _) & _).
  unfold scan_folder. rewrite E.
  set (P := fun v : World =>
    (forall k data,
       missing_exif_data w !! k = Some data ->
       missing_exif_data v !! k = Some data) /\
    (writable w = true -> in_sync w -> writable v = true /\ in_sync v)).
  assert (P0 : P w0).
  { split; [intros k data; rewrite Q1; auto|].
    unfold in_sync. rewrite Q1, Q2, Q3. auto. }
  assert (Hstep : forall image_path v r1 v',
            P v -> handle_missing_exif float image_path v = (r1, v') -> P v').
  { intros path v r1 v' [K S] Hrun.
    destruct (handle_missing_exif_frame float path v r1 v' Hrun) as [K' S'].
    split; [auto|]. intros Hw Hs. apply S', S; assumption. }
  destruct missing as [|path missing].
  - intros [= _ <-]. exact P0.
  - intros Hrun.
    apply (resolve_all_world focal_groups float P Hstep (path :: missing)
             rows0
             (print (FoundMissing (List.length (path :: missing))) w0) r w');
      [|exact Hrun].
    destruct P0 as [K S]. split; [exact K|]. exact S.
Qed.

Lemma analyze_folder_keeps_answers_witness :
  in_sync (snd (demo_run ["35"; "2"])).
Proof.
  apply (proj2 (analyze_folder_keeps_answers {[ "canon eos 7d" := 8 # 5 ]}
                  _define_focal_groups decimal "photos" demo_walk
                  relpath_below demo_decode
                  (init Absent true ["35"; "2"] "t")
                  (fst (demo_run ["35"; "2"])) (snd (demo_run ["35"; "2"]))
                  ltac:(vm_compute; reflexivity)));
    reflexivity.
Defined.

(** ** What the counts count *)

Section CountsMore.

Context {K : Type} (E : relation K) `{!Equivalence E}.
Variables same leb : K -> K -> bool.
Hypothesis same_spec : forall a b, same a b = true <-> E a b.

Lemma same_trans_l a b c :
  same a b = true -> same a c = same b c.
Proof.
  intros Hab. apply same_spec in Hab.
  destruct (same a c) eqn:Hac, (same b c) eqn:Hbc; try reflexivity.
  - apply same_spec in Hac.
    assert (H : E b c) by (etransitivity; [symmetry; exact Hab|exact Hac]).
    apply same_spec in H. congruence.
  - apply same_spec in Hbc.
    assert (H : E a c) by (etransitivity; eassumption).
    apply same_spec in H. congruence.
Qed.

Lemma count_tally_add k k0 acc :
  count_of same k (tally_add same k0 acc) =
    (count_of same k acc + (if same k0 k then 1 else 0))%nat.
Proof.
  unfold count_of. induction acc as [|[k' n] acc IH]; cbn.
  - destruct (same k0 k); reflexivity.
  - destruct (same k' k0) eqn:S0; cbn.
    + rewrite <- (same_trans_l k' k0 k S0).
      destruct (same k' k); cbn; lia.
    + destruct (same k' k) eqn:S1; cbn; [|exact IH].
      destruct (same k0 k) eqn:S2; [|lia].
      exfalso. apply same_spec in S1, S2.
      assert (H : E k' k0) by (etransitivity; [exact S1|symmetry; exact S2]).
      apply same_spec in H. congruence.
Qed.

Lemma count_fold_tally k l acc :
  count_of same k (fold_left (fun acc k => tally_add same k acc) l acc) =
    (count_of same k acc + occurrences same k l)%nat.
Proof.
  revert acc. unfold occurrences.
  induction l as [|a l IH]; intros acc; cbn [fold_left List.filter].
  - cbn. lia.
  - rewrite IH, count_tally_add. destruct (same a k); cbn; lia.
Qed.

Lemma sum_tally_add k0 acc :
  sum_list_with snd (tally_add same k0 acc) = S (sum_list_with snd acc).
Proof.
  induction acc as [|[k' n] acc IH]; cbn; [reflexivity|].
  destruct (same k' k0); cbn; [reflexivity|]. rewrite IH. lia.
Qed.

Lemma sum_fold_tally l acc :
  sum_list_with snd (fold_left (fun acc k => tally_add same k acc) l acc) =
    (sum_list_with snd acc + List.length l)%nat.
Proof.
  revert acc. induction l as [|a l IH]; intros acc; cbn [fold_left].
  - cbn. lia.
  - rewrite IH, sum_tally_add. cbn. lia.
Qed.

Lemma positive_tally_add k0 acc :
  Forall (fun row => (0 < snd row)%nat) acc ->
  Forall (fun row => (0 < snd row)%nat) (tally_add same k0 acc).
Proof.
  induction 1 as [|[k' n] acc Hn Hacc IH]; cbn.
  - repeat constructor.
  - destruct (same k' k0); constructor; cbn in *; auto; lia.
Qed.

Lemma positive_fold_tally l acc :
  Forall (fun row => (0 < snd row)%nat) acc ->
  Forall (fun row => (0 < snd row)%nat)
    (fold_left (fun acc k => tally_add same k acc) l acc).
Proof.
  revert acc. induction l as [|a l IH]; intros acc H; cbn [fold_left];
    [exact H|].
  apply IH, positive_tally_add, H.
Qed.

(** With distinct index values, the row found for a value does not depend
    on the order of the rows. *)
Lemma find_distinct k s row :
  distinct E (index s) ->
  row ∈ s -> same (fst row) k = true ->
  List.find (fun r => same (fst r) k) s = Some row.
Proof.
  induction s as [|a s IH]; cbn; intros D Hin Hk.
  - apply elem_of_nil in Hin. contradiction.
  - inversion D as [|? ? Ha Ds]; subst.
    apply elem_of_cons in Hin as [->|Hin]; [rewrite Hk; reflexivity|].
    destruct (same (fst a) k) eqn:Sa; [|auto].
    exfalso. apply Ha. exists (fst row). split.
    + apply list_elem_of_fmap. exists row. split; [reflexivity|exact Hin].
    + apply same_spec in Sa, Hk. etransitivity; [exact Sa|symmetry; exact Hk].
Qed.

Lemma count_of_perm k s s' :
  distinct E (index s) -> s ≡ₚ s' -> count_of same k s = count_of same k s'.
Proof.
  intros D P. unfold count_of.
  assert (D' : distinct E (index s')).
  { apply (distinct_perm E (index s)); [|exact D].
    unfold index. apply fmap_Permutation. exact P. }
  destruct (List.find (fun r => same (fst r) k) s) as [row|] eqn:F.
  - apply List.find_some in F as [Hin Hk].
    apply list_elem_of_In in Hin. rewrite P in Hin.
    rewrite (find_distinct k s' row D' Hin Hk). reflexivity.
  - destruct (List.find (fun r => same (fst r) k) s') as [row|] eqn:F';
      [|reflexivity].
    apply List.find_some in F' as [Hin Hk].
    apply list_elem_of_In in Hin. rewrite <- P in Hin.
    rewrite (find_distinct k s row D Hin Hk) in F. discriminate.
Qed.

Lemma stats_rows_perm l :
  sort_index leb (value_counts same l) ≡ₚ tally same l.
Proof.
  unfold sort_index, value_counts.
  rewrite !merge_sort_Permutation. reflexivity.
Qed.

Lemma stats_count k l :
  count_of same k (sort_index leb (value_counts same l)) =
    occurrences same k l.
Proof.
  rewrite (count_of_perm k _ (tally same l)).
  - unfold tally. rewrite count_fold_tally. reflexivity.
  - apply (stats_distinct E same leb same_spec).
  - apply stats_rows_perm.
Qed.

Lemma stats_sum l :
  sum_list_with snd (sort_index leb (value_counts same l)) = List.length l.
Proof.
  rewrite (stats_rows_perm l). unfold tally. rewrite sum_fold_tally.
  reflexivity.
Qed.

Lemma stats_positive l :
  Forall (fun row => (0 < snd row)%nat)
    (sort_index leb (value_counts same l)).
Proof.
  rewrite (stats_rows_perm l). apply positive_fold_tally. constructor.
Qed.

Lemma stats_nonempty l : l <> [] -> sort_index leb (value_counts same l) <> [].
Proof.
  intros Hl Hs. apply Hl.
  pose proof (stats_sum l) as H. rewrite Hs in H. cbn in H.
  destruct l; [reflexivity|discriminate].
Qed.

End CountsMore.

(** ** The aggregator, continued *)

Lemma occurrences_perm {K} (same : K -> K -> bool) (k : K) (l l' : list K) :
  l ≡ₚ l' -> occurrences same k l = occurrences same k l'.
Proof.
  unfold occurrences.
  induction 1 as [|x l l' _ IH|x y l|l l' l'' _ IH1 _ IH2]; cbn.
  - reflexivity.
  - destruct (same x k); cbn; congruence.
  - destruct (same x k), (same y k); reflexivity.
  - congruence.
Qed.

(** X8.  [generate_statistics], the counts.  The count listed for a label is the
    number of rows with that label, the count listed for a focal length is
    the number of rows with that value, a label or value that is not listed
    counting as 0; every listed count is at least 1; and the counts of the
    groups add up to the number of images. *)
Theorem generate_statistics_counts (rows : list ImageRecord)
    (stats : AnalysisResult) :
  generate_statistics rows = Some stats ->
  (forall l,
     count_of String.eqb l (group_stats stats) =
       occurrences String.eqb l (map focal_group rows)) /\
  (forall x,
     count_of Qeq_bool x (focal_stats stats) =
       occurrences Qeq_bool x (focal_column rows)) /\
  Forall (fun row => (0 < snd row)%nat) (group_stats stats) /\
  Forall (fun row => (0 < snd row)%nat) (focal_stats stats) /\
  sum_list_with snd (group_stats stats) = total_images stats /\
  sum_list_with snd (focal_stats stats) = List.length (focal_column rows) /\
  total_images stats = List.length rows.
Proof.
  destruct rows as [|r rows]; [discriminate|].
  intros [= <-]. cbn [group_stats focal_stats total_images].
  set (df := r :: rows).
  split; [|split; [|split; [|split; [|split; [|split]]]]].
  - intros l. apply (stats_count eq String.eqb String.leb String.eqb_eq).
  - intros x. apply (stats_count Qeq Qeq_bool Qle_bool Qeq_bool_iff).
  - apply stats_positive.
  - apply stats_positive.
  - rewrite stats_sum. cbn. rewrite length_map. reflexivity.
  - apply stats_sum.
  - reflexivity.
Qed.

Lemma generate_statistics_counts_witness :
  count_of String.eqb "标准 (50mm)"
    (sort_index String.leb
       (value_counts String.eqb
          (map focal_group
             [manual_record "a" 50; manual_record "b" 24;
              manual_record "c" 50]))) = 2%nat.
Proof.
  apply (proj1 (generate_statistics_counts
                  [manual_record "a" 50; manual_record "b" 24;
                   manual_record "c" 50] _ eq_refl) "标准 (50mm)").
Defined.

Lemma string_leb_refl (a : string) : String.leb a a = true.
Proof. destruct (String.leb_total a a); assumption. Qed.

Lemma head_least {K} (leb : K -> K -> bool) (E : relation K) (l : list K)
    (k : K) :
  (forall a b, E a b -> leb b a = true) ->
  (forall a b c, leb a b = true -> leb b c = true -> leb a c = true) ->
  StronglySorted (fun a b => leb a b = true) l ->
  has_key E k l ->
  exists g, head l = Some g /\ leb g k = true.
Proof.
  intros Hcompat Htrans Hs (k' & Hin & He).
  destruct l as [|g l]; [apply elem_of_nil in Hin; contradiction|].
  exists g. split; [reflexivity|].
  apply StronglySorted_cons in Hs as [Hall _].
  apply elem_of_cons in Hin as [->|Hin]; [apply Hcompat, He|].
  rewrite Forall_forall in Hall.
  apply (Htrans g k' k); [apply Hall, Hin|apply Hcompat, He].
Qed.

Lemma focal_column_labelled (focal_groups : list (string * (Z * Z)))
    (rows : list ImageRecord) :
  Forall (labelled focal_groups) rows ->
  List.length (focal_column rows) = List.length rows.
Proof.
  unfold focal_column.
  induction 1 as [|r rows (x & Hx & _) _ IH]; cbn; [reflexivity|].
  rewrite Hx. cbn. rewrite IH. reflexivity.
Qed.

(** X9.  [print_statistics], the suggestion.  For a non-empty list of rows that
    all carry a number, as the rows of [analyze_folder] do, both indices
    have a first entry, so the two look-ups [index[0]] succeed.  The group
    they yield is the smallest label present in the order of strings, and
    the focal length is the smallest value present. *)
Theorem suggestion_is_smallest_key
    (focal_groups : list (string * (Z * Z))) (rows : list ImageRecord) :
  rows <> [] ->
  Forall (labelled focal_groups) rows ->
  exists stats g x,
    generate_statistics rows = Some stats /\
    most_used_group stats = Some g /\
    most_used_focal stats = Some x /\
    g ∈ map focal_group rows /\
    has_key Qeq x (focal_column rows) /\
    (forall row, row ∈ rows -> String.leb g (focal_group row) = true) /\
    (forall row y, row ∈ rows -> equivalent_focal row = Some y -> x <= y).
Proof.
  intros Hne Hlab. destruct rows as [|r rows]; [contradiction|].
  set (df := r :: rows) in *.
  set (gs := sort_index String.leb
               (value_counts String.eqb (map focal_group df))).
  set (fs := sort_index Qle_bool (value_counts Qeq_bool (focal_column df))).
  assert (Hg : forall l, l ∈ map focal_group df ->
            exists g, head (index gs) = Some g /\ String.leb g l = true).
  { intros l Hl. apply (head_least String.leb eq).
    - intros a b ->. apply string_leb_refl.
    - apply string_leb_trans.
    - apply stats_sorted; [apply String.leb_total|apply string_leb_trans].
    - apply (stats_keys eq String.eqb String.leb String.eqb_eq).
      apply has_key_eq. exact Hl. }
  assert (Hf : forall y, y ∈ focal_column df ->
            exists x, head (index fs) = Some x /\ Qle_bool x y = true).
  { intros y Hy. apply (head_least Qle_bool Qeq).
    - intros a b Hab. apply Qle_bool_iff. rewrite Hab. apply Qle_refl.
    - intros a b c. rewrite !Qle_bool_iff. apply Qle_trans.
    - apply stats_sorted.
      + intros a b. rewrite !Qle_bool_iff.
        destruct (Qlt_le_dec a b) as [H|H];
          [left; apply Qlt_le_weak|right]; exact H.
      + intros a b c. rewrite !Qle_bool_iff. apply Qle_trans.
    - apply (stats_keys Qeq Qeq_bool Qle_bool Qeq_bool_iff).
      exists y. split; [exact Hy|reflexivity]. }
  destruct (Hg (focal_group r)) as (g & Hhg & _); [left|].
  assert (Hr : exists y0, equivalent_focal r = Some y0).
  { apply Forall_cons in Hlab as [(y0 & Hy0 & _) _]. eauto. }
  destruct Hr as (y0 & Hy0).
  assert (Hy0in : y0 ∈ focal_column df).
  { unfold focal_column. apply list_elem_of_omap. exists r.
    split; [left|exact Hy0]. }
  destruct (Hf y0 Hy0in) as (x & Hhx & _).
  exists {| dataframe := df; group_stats := gs; focal_stats := fs;
            total_images := List.length df |}, g, x.
  split; [reflexivity|]. split; [exact Hhg|]. split; [exact Hhx|].
  assert (Hgin : g ∈ index gs).
  { destruct (index gs); [discriminate|]. injection Hhg as ->. left. }
  assert (Hxin : x ∈ index fs).
  { destruct (index fs); [discriminate|]. injection Hhx as ->. left. }
  split; [|split; [|split]].
  - apply has_key_eq.
    apply (stats_keys eq String.eqb String.leb String.eqb_eq).
    apply has_key_eq. exact Hgin.
  - apply (stats_keys Qeq Qeq_bool Qle_bool Qeq_bool_iff).
    exists x. split; [exact Hxin|reflexivity].
  - intros row Hrow.
    destruct (Hg (focal_group row)) as (g' & Hg' & Hle).
    + apply list_elem_of_fmap. exists row. split; [reflexivity|exact Hrow].
    + rewrite Hhg in Hg'. injection Hg' as <-. exact Hle.
  - intros row y Hrow Hy.
    destruct (Hf y) as (x' & Hx' & Hle).
    + unfold focal_column. apply list_elem_of_omap. exists row.
      split; [exact Hrow|exact Hy].
    + rewrite Hhx in Hx'. injection Hx' as <-.
      apply Qle_bool_iff. exact Hle.
Qed.

Lemma suggestion_is_smallest_key_witness :
  exists stats g x,
    generate_statistics (rows_of (fst (demo_run ["35"; "2"; "85"; "1"]))) =
      Some stats /\
    most_used_group stats = Some g /\
    most_used_focal stats = Some x.
Proof.
  destruct (suggestion_is_smallest_key _define_focal_groups
              (rows_of (fst (demo_run ["35"; "2"; "85"; "1"]))))
    as (stats & g & x & H1 & H2 & H3 & _).
  - vm_compute. discriminate.
  - vm_compute. repeat constructor; eexists; split; reflexivity.
  - exists stats, g, x. repeat split; assumption.
Defined.

(** ** Independence of the order of the rows *)

Lemma string_ltb_irrefl (a b : string) :
  String.ltb a b = true -> String.eqb b a = false.
Proof.
  unfold String.ltb. intros H.
  destruct (String.eqb b a) eqn:E; [|reflexivity].
  apply String.eqb_eq in E. subst b.
  destruct (String.compare a a) eqn:C; try discriminate H.
  pose proof (String.compare_antisym a a) as A. rewrite C in A.
  discriminate A.
Qed.

Lemma string_ltb_asym (a b : string) :
  String.ltb a b = true -> String.ltb b a = true -> False.
Proof.
  unfold String.ltb. rewrite (String.compare_antisym b a).
  destruct (String.compare a b); cbn; intros; discriminate.
Qed.

Lemma count_of_cons (k k' : string) (n : nat) (t : list (string * nat)) :
  count_of String.eqb k ((k', n) :: t) =
    if String.eqb k' k then n else count_of String.eqb k t.
Proof. unfold count_of. cbn. destruct (String.eqb k' k); reflexivity. Qed.

Lemma count_of_above (k : string) (t : list (string * nat)) :
  Forall (fun k' => String.ltb k k' = true) (index t) ->
  count_of String.eqb k t = 0%nat.
Proof.
  induction t as [|[k' n] t IH]; [reflexivity|].
  cbn [index map fst]. intros [Hk Ht]%Forall_cons.
  rewrite count_of_cons, (string_ltb_irrefl k k' Hk). apply IH, Ht.
Qed.

Lemma count_of_listed (k : string) (t : list (string * nat)) :
  (0 < count_of String.eqb k t)%nat -> k ∈ index t.
Proof.
  unfold count_of. intros H.
  destruct (List.find (fun row => String.eqb (fst row) k) t) as [row|] eqn:F;
    [|cbn in H; lia].
  apply List.find_some in F as [Hin Hk]. apply String.eqb_eq in Hk.
  subst k. apply list_elem_of_fmap. exists row. split; [reflexivity|].
  apply list_elem_of_In. exact Hin.
Qed.

(** Two series with ascending keys and positive counts that count alike
    are the same series. *)
Lemma sorted_counts_unique (s s' : list (string * nat)) :
  StronglySorted (fun a b => String.ltb a b = true) (index s) ->
  StronglySorted (fun a b => String.ltb a b = true) (index s') ->
  Forall (fun row => (0 < snd row)%nat) s ->
  Forall (fun row => (0 < snd row)%nat) s' ->
  (forall k, count_of String.eqb k s = count_of String.eqb k s') ->
  s = s'.
Proof.
  revert s'. induction s as [|[k n] t IH]; intros [|[k' n'] t'] S S' P P' C.
  - reflexivity.
  - exfalso. specialize (C k'). rewrite count_of_cons, String.eqb_refl in C.
    apply Forall_cons in P' as [Hn' _]. cbn in C, Hn'. lia.
  - exfalso. specialize (C k). rewrite count_of_cons, String.eqb_refl in C.
    apply Forall_cons in P as [Hn _]. cbn in C, Hn. lia.
  - cbn [index map fst] in S, S'.
    apply StronglySorted_cons in S as [Hk St].
    apply StronglySorted_cons in S' as [Hk' St'].
    apply Forall_cons in P as [Hn Pt]. apply Forall_cons in P' as [Hn' Pt'].
    cbn in Hn, Hn'.
    assert (Ek : k = k').
    { pose proof (C k) as C1. pose proof (C k') as C2.
      rewrite !count_of_cons, !String.eqb_refl in C1, C2.
      destruct (String.eqb k' k) eqn:E1;
        [apply String.eqb_eq in E1; congruence|].
      destruct (String.eqb k k') eqn:E2;
        [apply String.eqb_eq in E2; congruence|].
      exfalso.
      assert (H1 : k ∈ index t') by (apply count_of_listed; lia).
      assert (H2 : k' ∈ index t) by (apply count_of_listed; lia).
      rewrite Forall_forall in Hk, Hk'.
      apply (string_ltb_asym k k'); [apply Hk, H2|apply Hk', H1]. }
    subst k'.
    assert (En : n = n').
    { specialize (C k). rewrite !count_of_cons, !String.eqb_refl in C.
      exact C. }
    subst n'. f_equal. apply IH; try assumption.
    intros j. specialize (C j). rewrite !count_of_cons in C.
    destruct (String.eqb k j) eqn:Ej; [|exact C].
    apply String.eqb_eq in Ej. subst j.
    rewrite (count_of_above k t Hk), (count_of_above k t' Hk').
    reflexivity.
Qed.

Lemma group_stats_strict (labels : list string) :
  StronglySorted (fun a b => String.ltb a b = true)
    (index (sort_index String.leb (value_counts String.eqb labels))).
Proof.
  apply (strongly_sorted_impl (fun a b => String.leb a b = true /\ a <> b)).
  - apply string_leb_strict.
  - apply (stats_strict eq String.eqb String.leb).
    + apply String.eqb_eq.
    + apply String.leb_total.
    + apply string_leb_trans.
Qed.

(** X10.  [generate_statistics] and the order of the rows.  Two lists with the
    same rows in different orders, as two walks of the same folder may
    give, lead to the same grouped counts, in the same order, to the same
    count for every focal length, and to the same total. *)
Theorem generate_statistics_ignores_row_order
    (rows rows' : list ImageRecord) (stats : AnalysisResult) :
  rows ≡ₚ rows' ->
  generate_statistics rows = Some stats ->
  exists stats',
    generate_statistics rows' = Some stats' /\
    group_stats stats' = group_stats stats /\
    (forall x,
       count_of Qeq_bool x (focal_stats stats') =
         count_of Qeq_bool x (focal_stats stats)) /\
    total_images stats' = total_images stats.
Proof.
  intros Hp Hs.
  destruct rows as [|r rows]; [discriminate|].
  destruct rows' as [|r' rows'];
    [apply Permutation_nil_r in Hp; discriminate|].
  injection Hs as <-. eexists. split; [reflexivity|].
  cbn [group_stats focal_stats total_images].
  set (df := r :: rows) in *. set (df' := r' :: rows') in *.
  split; [|split].
  - apply sorted_counts_unique; try apply group_stats_strict;
      try apply stats_positive.
    intros k.
    rewrite !(stats_count eq String.eqb String.leb String.eqb_eq).
    apply occurrences_perm.
    exact (Permutation_map focal_group (Permutation_sym Hp)).
  - intros x.
    rewrite !(stats_count Qeq Qeq_bool Qle_bool Qeq_bool_iff).
    apply occurrences_perm.
    exact (omap_Permutation equivalent_focal _ _ (Permutation_sym Hp)).
  - exact (Permutation_length (Permutation_sym Hp)).
Qed.

Lemma generate_statistics_ignores_row_order_witness :
  exists stats',
    generate_statistics [manual_record "b" 24; manual_record "a" 50] =
      Some stats' /\
    group_stats stats' =
      [("广角 (24-28mm)", 1%nat); ("标准 (50mm)", 1%nat)].
Proof.
  destruct (generate_statistics_ignores_row_order
              [manual_record "a" 50; manual_record "b" 24]
              [manual_record "b" 24; manual_record "a" 50] _
              ltac:(apply perm_swap) eq_refl)
    as (stats' & H1 & H2 & _).
  exists stats'. split; [exact H1|]. rewrite H2. reflexivity.
Defined.

(** ** The filter on file names *)

Lemma dot_lower_char (c : ascii) :
  Ascii.eqb "." (lower_char c) = Ascii.eqb "." c.
Proof. destruct c as [[] [] [] [] [] [] [] []]; reflexivity. Qed.

Lemma underscore_lower_char (c : ascii) :
  Ascii.eqb "_" (lower_char c) = Ascii.eqb "_" c.
Proof. destruct c as [[] [] [] [] [] [] [] []]; reflexivity. Qed.

Lemma prefix_resource_fork (s : string) :
  String.prefix "._" s =
    match s with
    | String a (String b _) => Ascii.eqb "." a && Ascii.eqb "_" b
    | _ => false
    end.
Proof.
  destruct s as [|a [|b s]]; cbn -[ascii_dec Ascii.eqb]; [reflexivity|..].
  - destruct (ascii_dec "." a); reflexivity.
  - destruct (ascii_dec "." a) as [<-|N].
    + destruct (ascii_dec "_" b) as [<-|M]; [destruct s; reflexivity|].
      apply Ascii.eqb_neq in M. rewrite M. reflexivity.
    + apply Ascii.eqb_neq in N. rewrite N. reflexivity.
Qed.

Lemma prefix_lower (s : string) :
  String.prefix "._" (lower s) = String.prefix "._" s.
Proof.
  rewrite !prefix_resource_fork. destruct s as [|a [|b s]]; cbn [lower];
    rewrite ?dot_lower_char, ?underscore_lower_char; reflexivity.
Qed.

(** X11.  [analyze_folder], the filter.  Whether a file is analysed does not
    depend on the case of the letters of its name: [IMG.JPG] passes as
    [img.jpg] does. *)
Theorem is_supported_ignores_case (name name' : string) :
  case_variant name name' -> is_supported name = is_supported name'.
Proof.
  intros Hv. apply case_variant_lower in Hv. unfold is_supported.
  rewrite <- (prefix_lower name), <- (prefix_lower name'), Hv.
  reflexivity.
Qed.

Lemma is_supported_ignores_case_witness :
  is_supported "A.Jpg" = is_supported "a.jPG".
Proof.
  apply is_supported_ignores_case.
  repeat first
    [ apply case_variant_nil
    | apply case_variant_cons;
      [first [ left; reflexivity
             | right; left; split; reflexivity
             | right; right; split; reflexivity ]|] ].
Defined.

(** ** The keys of the crop-factor table *)

Lemma lower_idem (s : string) : lower (lower s) = lower s.
Proof.
  induction s as [|c s IH]; cbn; [reflexivity|].
  rewrite lower_char_idem, IH. reflexivity.
Qed.

Lemma lower_lstrip (s : string) : lower (lstrip s) = lstrip (lower s).
Proof.
  induction s as [|c s IH]; cbn; [reflexivity|].
  rewrite isspace_lower_char. destruct (isspace c); [exact IH|reflexivity].
Qed.

Lemma lower_rstrip (s : string) : lower (rstrip s) = rstrip (lower s).
Proof.
  induction s as [|c s IH]; cbn; [reflexivity|].
  rewrite <- IH, isspace_lower_char.
  destruct (rstrip s); cbn; [destruct (isspace c)|]; reflexivity.
Qed.

Lemma rstrip_idem (s : string) : rstrip (rstrip s) = rstrip s.
Proof.
  induction s as [|c s IH]; cbn; [reflexivity|].
  destruct (rstrip s) as [|a r] eqn:E.
  - destruct (isspace c) eqn:Hc; cbn; [reflexivity|].
    rewrite Hc. reflexivity.
  - cbn [rstrip] in IH |- *. rewrite IH. reflexivity.
Qed.

Lemma lstrip_idem (s : string) : lstrip (lstrip s) = lstrip s.
Proof.
  induction s as [|c s IH]; cbn; [reflexivity|].
  destruct (isspace c) eqn:Hc; [exact IH|]. cbn. rewrite Hc. reflexivity.
Qed.

Lemma rstrip_lstrip (u : string) :
  rstrip u = u -> rstrip (lstrip u) = lstrip u.
Proof.
  induction u as [|c u IH]; cbn [lstrip]; [reflexivity|].
  intros H. destruct (isspace c) eqn:Hc; [|exact H].
  apply IH. cbn [rstrip] in H.
  destruct (rstrip u) as [|a r].
  - rewrite Hc in H. discriminate.
  - injection H as ->. reflexivity.
Qed.

Lemma strip_idem (s : string) : strip (strip s) = strip s.
Proof.
  unfold strip.
  rewrite (rstrip_lstrip (rstrip s) (rstrip_idem s)). apply lstrip_idem.
Qed.

Lemma normal_key (s : string) :
  strip (lower (strip (lower s))) = strip (lower s).
Proof.
  unfold strip at 2. rewrite lower_lstrip, lower_rstrip, lower_idem.
  fold (strip (lower s)). apply strip_idem.
Qed.

(** X12.  [get_camera_crop_factor] and the keys of the table.  The key looked up
    is always lower-case and trimmed, so an entry whose key has a capital
    letter or surrounding whitespace is never used: removing it changes the
    answer for no camera model. *)
Theorem unnormalised_key_is_dead (crop_factors : gmap string Q)
    (k : string) (model : option string) :
  strip (lower k) <> k ->
  get_camera_crop_factor (delete k crop_factors) model =
    get_camera_crop_factor crop_factors model.
Proof.
  intros Hk. destruct model as [[|c s]|]; [reflexivity| |reflexivity].
  cbn [get_camera_crop_factor falsy].
  rewrite lookup_delete_ne; [reflexivity|].
  intros ->. apply Hk. apply normal_key.
Qed.

Lemma unnormalised_key_is_dead_witness :
  get_camera_crop_factor
    (delete "Canon EOS R5" {[ "Canon EOS R5" := 8 # 5 ]})
    (Some "Canon EOS R5") =
  get_camera_crop_factor {[ "Canon EOS R5" := 8 # 5 ]} (Some "Canon EOS R5").
Proof.
  apply unnormalised_key_is_dead. vm_compute. discriminate.
Defined.

(** ** Which values get a label of the table *)

Lemma first_group_within groups x l :
  first_group groups x = Some l ->
  exists lo hi, In (l, (lo, hi)) groups /\ within x (l, (lo, hi)).
Proof.
  induction groups as [|[l' [lo hi]] gs IH]; cbn; [discriminate|].
  destruct (Qle_bool (inject_Z lo) x && Qle_bool x (inject_Z hi)) eqn:E.
  - intros [= ->]. exists lo, hi. split; [now left|].
    apply range_test in E. exact E.
  - intros H. destruct (IH H) as (lo' & hi' & Hin & Hw).
    exists lo', hi'. split; [now right|exact Hw].
Qed.

Lemma synthetic_not_label (s l : string) :
  In l (map fst _define_focal_groups) -> (s +:+ "mm")%stdpp <> l.
Proof.
  cbn. intros Hin H.
  repeat (destruct Hin as [<-|Hin]; [peel H s|]). contradiction.
Qed.

Ltac in_the_gap Hg hi :=
  exfalso; apply Hg; unfold in_gap, gaps; apply Exists_exists;
  exists hi; split; [apply list_elem_of_In; cbn; tauto|];
  split; [assumption|unfold inject_Z in *; lra].

Ltac grouped i :=
  unfold inject_Z in *; eexists;
  apply (first_group_at _define_focal_groups _ i _ _ _ eq_refl);
  [ split; cbn [fst snd]; unfold inject_Z; lra
  | cbn [take _define_focal_groups]; outside ].

Ltac up_to x Hg hi lo' i :=
  destruct (Qlt_le_dec (inject_Z hi) x) as [?|?];
  [ destruct (Qlt_le_dec x (inject_Z lo')) as [?|?];
    [ in_the_gap Hg hi | ]
  | unfold inject_Z in *; grouped i ].

(** X13.  [group_focal_length] and the table.  A number gets a label of the table
    exactly when it lies between 14 and 2000 and not strictly between the
    upper bound of one group and the lower bound of the next (19 and 20, 23
    and 24, and so on); every other number, 19.5 for one, gets the label
    made of its nearest integer. *)
Theorem table_label_iff (x : Q) :
  (In (group_focal_length _define_focal_groups (Some x))
      (map fst _define_focal_groups) <->
   14 <= x /\ x <= 2000 /\ ~ in_gap x) /\
  (x < 14 \/ 2000 < x \/ in_gap x ->
   group_focal_length _define_focal_groups (Some x) =
     (str_of_int (round_half_even x) +:+ "mm")%stdpp).
Proof.
  assert (Hin : forall l lo hi,
            In (l, (lo, hi)) _define_focal_groups ->
            within x (l, (lo, hi)) ->
            14 <= x /\ x <= 2000 /\ ~ in_gap x).
  { intros l lo hi Hl [H1 H2]. cbn in Hl. cbn [fst snd] in H1, H2.
    repeat (destruct Hl as [[= <- <- <-]|Hl];
            [unfold inject_Z in H1, H2;
             split; [lra|]; split; [lra|];
             unfold in_gap, gaps; intros G;
             repeat (apply Exists_cons in G as [[G1 G2]|G];
                     [unfold inject_Z in G1, G2; cbn in G1, G2; lra|]);
             apply Exists_nil in G; exact G|]).
    contradiction. }
  assert (Hout : 14 <= x /\ x <= 2000 /\ ~ in_gap x ->
            exists l, first_group _define_focal_groups x = Some l).
  { intros (H14 & H2000 & Hg).
    up_to x Hg 19%Z 20%Z 0%nat. up_to x Hg 23%Z 24%Z 1%nat.
    up_to x Hg 28%Z 29%Z 2%nat. up_to x Hg 40%Z 41%Z 3%nat.
    up_to x Hg 65%Z 66%Z 4%nat.
    destruct (Qlt_le_dec 95 x) as [?|?]; [|grouped 5%nat].
    up_to x Hg 149%Z 150%Z 6%nat. up_to x Hg 250%Z 251%Z 7%nat.
    up_to x Hg 349%Z 350%Z 8%nat. up_to x Hg 449%Z 450%Z 9%nat.
    up_to x Hg 649%Z 650%Z 10%nat.
    unfold inject_Z in *. grouped 11%nat. }
  split; [split|].
  - unfold group_focal_length.
    destruct (first_group _define_focal_groups x) as [l|] eqn:E.
    + intros _. destruct (first_group_within _ _ _ E) as (lo & hi & Hl & Hw).
      exact (Hin l lo hi Hl Hw).
    + intros H. exfalso. exact (synthetic_not_label _ _ H eq_refl).
  - intros H. destruct (Hout H) as (l & E).
    unfold group_focal_length. rewrite E.
    exact (first_group_label _ _ _ E).
  - intros H. unfold group_focal_length.
    destruct (first_group _define_focal_groups x) as [l|] eqn:E;
      [|reflexivity].
    exfalso. destruct (first_group_within _ _ _ E) as (lo & hi & Hl & Hw).
    destruct (Hin l lo hi Hl Hw) as (A & B & C).
    destruct H as [H|[H|H]]; [lra|lra|contradiction].
Qed.

Lemma table_label_iff_witness :
  group_focal_length _define_focal_groups (Some (39 # 2)) =
    (str_of_int (round_half_even (39 # 2)) +:+ "mm")%stdpp.
Proof.
  apply (proj2 (table_label_iff (39 # 2))). right. right.
  unfold in_gap, gaps. apply Exists_cons. left. split; reflexivity.
Defined.

(** ** The ticks of the bar chart *)

Lemma omap_total {A B} (f : A -> option B) (l : list A) :
  Forall (fun a => is_Some (f a)) l ->
  List.length (omap f l) = List.length l /\
  forall j a, l !! j = Some a -> omap f l !! j = f a.
Proof.
  induction 1 as [|a l [b Hb] _ [IHl IHj]]; cbn.
  - split; [reflexivity|]. intros j a H. discriminate.
  - rewrite Hb. cbn. split; [rewrite IHl; reflexivity|].
    intros [|j] a' H; cbn in *; [injection H as <-; auto|auto].
Qed.

Lemma range_step_spec (n step : nat) :
  (0 < step)%nat ->
  List.length (range_step n step) =
    (if Nat.eqb n 0 then 0 else (n - 1) / step + 1)%nat /\
  forall j i, range_step n step !! j = Some i ->
              i = (j * step)%nat /\ (i < n)%nat.
Proof.
  intros Hs. destruct n as [|m]; cbn [range_step Nat.eqb].
  - split; [reflexivity|]. intros j i H. discriminate.
  - rewrite length_map, length_seq.
    replace (S m - 1)%nat with m by lia. split; [reflexivity|].
    intros j i H. rewrite list_lookup_fmap in H.
    destruct (seq 0 (m / step + 1) !! j) as [k|] eqn:Hk; [|discriminate].
    apply lookup_seq in Hk as [-> Hlt]. injection H as <-.
    split; [reflexivity|]. cbn in Hlt |- *.
    assert (j <= m / step)%nat by lia.
    pose proof (Nat.Div0.mul_div_le m step).
    nia.
Qed.

(** X14.  [visualize_results], the axis of the bar chart.  There are as many
    labels as ticks, every tick sits on a bar, and the label of a tick is
    the focal length of the bar it sits on; with more than 20 distinct
    focal lengths, between 20 and 39 ticks are drawn. *)
Theorem xticks_match_labels {A} (values : list A) :
  let n := List.length values in
  List.length (xticklabels values) = List.length (xticks n) /\
  (forall j i,
     xticks n !! j = Some i ->
     (i < n)%nat /\ xticklabels values !! j = values !! i) /\
  ((20 < n)%nat ->
   (20 <= List.length (xticks n) <= 39)%nat).
Proof.
  intros n. unfold xticklabels, xticks. fold n.
  destruct (20 <? n)%nat eqn:Hn.
  - apply Nat.ltb_lt in Hn.
    set (step := Nat.max 1 (n / 20)).
    assert (Hstep : (0 < step)%nat) by (subst step; lia).
    destruct (range_step_spec n step Hstep) as [Hlen Hidx].
    assert (Hall : Forall (fun i => is_Some (values !! i))
                     (range_step n step)).
    { apply Forall_forall. intros i Hi.
      apply list_elem_of_lookup in Hi as [j Hj].
      destruct (Hidx j i Hj) as [_ Hlt].
      apply lookup_lt_is_Some. exact Hlt. }
    destruct (omap_total (fun i => values !! i) _ Hall) as [Hl Hj].
    unfold slice_step. fold n. split; [exact Hl|]. split.
    + intros j i Hji. destruct (Hidx j i Hji) as [_ Hlt].
      split; [exact Hlt|]. apply Hj. exact Hji.
    + intros _. rewrite Hlen.
      destruct (Nat.eqb_spec n 0) as [->|_]; [lia|].
      assert (H20 : (1 <= n / 20)%nat)
        by (apply Nat.div_le_lower_bound; lia).
      assert (Es : step = (n / 20)%nat) by (subst step; lia).
      pose proof (Nat.Div0.mul_div_le n 20) as Hlo.
      pose proof (Nat.mul_succ_div_gt n 20 ltac:(lia)) as Hhi.
      rewrite <- Es in Hlo, Hhi.
      assert (19 <= (n - 1) / step)%nat
        by (apply Nat.div_le_lower_bound; lia).
      assert ((n - 1) / step < 39)%nat
        by (apply Nat.Div0.div_lt_upper_bound; lia).
      lia.
  - apply Nat.ltb_ge in Hn. rewrite length_seq.
    split; [reflexivity|]. split; [|lia].
    intros j i Hji. apply lookup_seq in Hji as [-> Hlt].
    split; [exact Hlt|reflexivity].
Qed.

Lemma xticks_match_labels_witness :
  (20 <= List.length (xticks (List.length (seq 100 47))) <= 39)%nat.
Proof.
  apply (proj2 (proj2 (xticks_match_labels (seq 100 47)))).
  vm_compute. lia.
Defined.

(** ** Files without usable metadata *)

Lemma extract_exif_data_none (decode : string -> decoded)
    (image_path : string) (w : World) :
  fst (fst (extract_exif_data decode image_path w)) = None <->
  unusable (decode image_path) = true.
Proof.
  unfold extract_exif_data, unusable.
  destruct (decode image_path) as [| |[[n d|x]|] model]; cbn;
    try tauto; try (split; [discriminate|discriminate]).
  destruct (d =? 0)%Z; cbn; split; congruence.
Qed.

(** ** A run in which every image is skipped *)

Section SkipFacts.

Variable crop_factors : gmap string Q.
Variable focal_groups : list (string * (Z * Z)).
Variable float : string -> option Q.
Variable input_folder : string.
Variable relpath : string -> string -> string.
Variable decode : string -> decoded.
Hypothesis no_metadata : forall path, unusable (decode path) = true.

Let scan := scan_file crop_factors focal_groups input_folder relpath decode.

Lemma scan_file_no_row root name st :
  fst (fst (scan root name st)) = fst (fst st).
Proof.
  destruct st as [[rows missing] w]. subst scan. unfold scan_file.
  destruct (is_supported name); [|reflexivity].
  set (path := join root name).
  pose proof (extract_exif_data_none decode path
                (print (Processing (relpath path input_folder)) w)) as Hn.
  destruct (extract_exif_data decode path _) as [[[f|] model] w1];
    cbn [fst] in Hn; [|reflexivity].
  destruct Hn as [_ Hn]. discriminate (Hn (no_metadata path)).
Qed.

Lemma scan_files_no_row root files st :
  fst (fst (fold_left (fun st name => scan root name st) files st)) =
    fst (fst st).
Proof.
  revert st. induction files as [|name files IH]; intros st; cbn;
    [reflexivity|].
  rewrite IH. apply scan_file_no_row.
Qed.

Lemma scan_dirs_no_row walk st :
  fst (fst (fold_left
              (fun st '(root, files) =>
                 fold_left (fun st name => scan root name st) files st)
              walk st)) = fst (fst st).
Proof.
  revert st. induction walk as [|[root files] walk IH]; intros st; cbn;
    [reflexivity|].
  rewrite IH. apply scan_files_no_row.
Qed.

Lemma handle_missing_exif_blank image_path w line rest :
  missing_exif_data w !! basename image_path = None ->
  stdin w = line :: rest -> strip line = "" ->
  exists w',
    handle_missing_exif float image_path w = (Ok None, w') /\
    stdin w' = rest /\ missing_exif_data w' = missing_exif_data w /\
    disk w' = disk w.
Proof.
  intros Hs Hin Hblank. unfold handle_missing_exif. rewrite Hs.
  cbn [stdin console print emit]. rewrite Hin. cbn [read_focal].
  rewrite Hblank. cbn. eexists. repeat split.
Qed.

Lemma resolve_all_skipped missing rows w blanks rest :
  missing_exif_data w = ∅ ->
  stdin w = blanks ++ rest ->
  Forall (fun l => strip l = "") blanks ->
  List.length blanks = List.length missing ->
  exists w',
    resolve_all focal_groups float missing rows w = (Ok rows, w') /\
    stdin w' = rest /\ missing_exif_data w' = ∅ /\ disk w' = disk w.
Proof.
  revert w blanks.
  induction missing as [|path missing IH]; intros w blanks He Hin Hb Hl.
  - destruct blanks; [|discriminate]. exists w. repeat split; assumption.
  - destruct blanks as [|line blanks]; [discriminate|].
    apply Forall_cons in Hb as [Hline Hb]. injection Hl as Hl.
    destruct (handle_missing_exif_blank path w line (blanks ++ rest))
      as (w1 & Hrun & Hin1 & Hs1 & Hd1);
      [rewrite He; apply lookup_empty|exact Hin|exact Hline|].
    destruct (IH w1 blanks) as (w' & Hrest & Hin' & Hs' & Hd');
      [congruence|assumption..|].
    exists w'. cbn [resolve_all]. unfold bind at 1, resolve_file, bind.
    rewrite Hrun. cbn. split; [exact Hrest|].
    repeat split; congruence.
Qed.

End SkipFacts.

(** X16.  [analyze_folder] when nothing can be analysed.  If no file has usable
    metadata, the store is empty and the user answers every question with
    a blank line, the run returns no rows at all, which is the case in
    which [main] stops and [generate_statistics] returns [None]; one line
    is read per file that passes the filter, and store and file stay as
    they were. *)
Theorem analyze_folder_all_skipped
    (crop_factors : gmap string Q) (focal_groups : list (string * (Z * Z)))
    (float : string -> option Q) (input_folder : string)
    (walk : list (string * list string))
    (relpath : string -> string -> string) (decode : string -> decoded)
    (w : World) (blanks rest : list string) :
  (forall path, unusable (decode path) = true) ->
  missing_exif_data w = ∅ ->
  stdin w = blanks ++ rest ->
  Forall (fun l => strip l = "") blanks ->
  List.length blanks = List.length (supported_files walk) ->
  exists w',
    analyze_folder crop_factors focal_groups float input_folder walk
      relpath decode w = (Ok [], w') /\
    generate_statistics [] = None /\
    stdin w' = rest /\ missing_exif_data w' = ∅ /\ disk w' = disk w.
Proof.
  intros Hno He Hin Hb Hl. unfold analyze_folder, scan_folder.
  destruct (scan_dirs_steps crop_factors focal_groups input_folder relpath
              decode walk [] [] (print StartAnalysis w))
    as (rows & missing & w0 & E & (Q1 & Q2 & _ & Q4 & _) & Hlen & _).
  pose proof (scan_dirs_no_row crop_factors focal_groups input_folder
                relpath decode Hno walk ([], [], print StartAnalysis w))
    as Hrows.
  rewrite E in Hrows |- *. cbn in Hrows. subst rows. cbn in Hlen.
  cbn in Q1, Q2, Q4.
  destruct missing as [|path missing].
  - exists w0. destruct blanks; [|cbn in *; lia]. cbn in Hin.
    repeat split; congruence.
  - destruct (resolve_all_skipped focal_groups float (path :: missing) []
                (print (FoundMissing (List.length (path :: missing))) w0)
                blanks rest)
      as (w' & Hrun & Hin' & Hs' & Hd').
    + cbn. congruence.
    + cbn. congruence.
    + exact Hb.
    + lia.
    + exists w'. split; [exact Hrun|]. cbn in Hd'.
      repeat split; congruence.
Qed.

Lemma analyze_folder_all_skipped_witness :
  exists w',
    analyze_folder ∅ _define_focal_groups decimal "photos" demo_walk
      relpath_below (fun _ => NoExif)
      (init Absent true ([""; " "; ""; ""] ++ ["50"]) "t") = (Ok [], w') /\
    generate_statistics [] = None /\
    stdin w' = ["50"] /\ missing_exif_data w' = ∅ /\ disk w' = Absent.
Proof.
  apply (analyze_folder_all_skipped ∅ _define_focal_groups decimal "photos"
           demo_walk relpath_below (fun _ => NoExif)
           (init Absent true ([""; " "; ""; ""] ++ ["50"]) "t")
           [""; " "; ""; ""] ["50"]).
  - reflexivity.
  - reflexivity.
  - reflexivity.
  - repeat constructor.
  - reflexivity.
Defined.

(** ** A run without a crop-factor table *)



